(** * Shape-to-model compiler of [plugins/aws/tools/model_gen.py]

    A shallow embedding of the generator that walks a botocore service
    schema and emits [AwsModel] class descriptions, together with the
    properties of the traversal: deduplication through the shared
    [visited] set, output order, error behaviour and termination.

    Python strings are modelled as [string] (identifiers of the schema are
    ASCII), the [visited] set as a [gset string], the botocore schema as a
    finite map from shape names to shape definitions, exceptions as an
    error result. *)

From stdpp Require Import gmap strings list.
From Stdlib Require Import Ascii String.

Open Scope string_scope.
Open Scope list_scope.
Open Scope nat_scope.

(** ** Characters and strings *)

Definition quote : string := String (ascii_of_nat 34) EmptyString.

Definition in_range (lo hi : nat) (c : ascii) : bool :=
  let n := nat_of_ascii c in Nat.leb lo n && Nat.leb n hi.

(** The character classes [[A-Z]], [[a-z]], [[a-z0-9]] and [.] of [re]. *)
Definition is_upper (c : ascii) : bool := in_range 65 90 c.
Definition is_lower (c : ascii) : bool := in_range 97 122 c.
Definition is_digit (c : ascii) : bool := in_range 48 57 c.
Definition is_lower_or_digit (c : ascii) : bool := is_lower c || is_digit c.
Definition is_dot (c : ascii) : bool := negb (Nat.eqb (nat_of_ascii c) 10).

(** [str.lower()] on ASCII text; other bytes are left as they are. *)
Definition lower_char (c : ascii) : ascii :=
  if is_upper c then ascii_of_nat (nat_of_ascii c + 32) else c.

Fixpoint lower (s : string) : string :=
  match s with
  | EmptyString => EmptyString
  | String c rest => String (lower_char c) (lower rest)
  end.

(** [sep.join(parts)]. *)
Fixpoint join (sep : string) (parts : list string) : string :=
  match parts with
  | [] => EmptyString
  | [p] => p
  | p :: rest => p +:+ sep +:+ join sep rest
  end.


(** The longest prefix of [[a-z]] characters, and what follows it. *)
Fixpoint span_lower (s : string) : string * string :=
  match s with
  | String c rest =>
      if is_lower c
      then let '(run, tail) := span_lower rest in (String c run, tail)
      else (EmptyString, s)
  | EmptyString => (EmptyString, EmptyString)
  end.

(** ** [re.sub]

    [re_sub match_at s] scans [s] from the left. [match_at] tries the
    pattern at the start of the remaining text and gives the replacement
    and the text after the match; where the pattern does not match, one
    character is copied. None of the three patterns matches the empty
    string, so [String.length s] steps are enough. *)
Fixpoint re_sub_from (match_at : string -> option (string * string))
    (steps : nat) (s : string) : string :=
  match steps with
  | O => s
  | S steps' =>
      match match_at s with
      | Some (replacement, rest) => replacement +:+ re_sub_from match_at steps' rest
      | None =>
          match s with
          | EmptyString => EmptyString
          | String c rest => String c (re_sub_from match_at steps' rest)
          end
      end
  end.

Definition re_sub (match_at : string -> option (string * string)) (s : string) : string :=
  re_sub_from match_at (String.length s) s.

(** [(.)([A-Z][a-z]+)] replaced by [\1_\2]. *)
Definition match_upper_word (s : string) : option (string * string) :=
  match s with
  | String c (String u rest) =>
      if is_dot c && is_upper u then
        match span_lower rest with
        | (EmptyString, _) => None
        | (run, tail) => Some (String c ("_" +:+ String u run), tail)
        end
      else None
  | _ => None
  end.

(** [__([A-Z])] replaced by [_\1]. *)
Definition match_double_underscore (s : string) : option (string * string) :=
  match s with
  | String "_" (String "_" (String u rest)) =>
      if is_upper u then Some ("_" +:+ String u EmptyString, rest) else None
  | _ => None
  end.

(** [([a-z0-9])([A-Z])] replaced by [\1_\2]. *)
Definition match_lower_upper (s : string) : option (string * string) :=
  match s with
  | String c (String u rest) =>
      if is_lower_or_digit c && is_upper u
      then Some (String c ("_" +:+ String u EmptyString), rest)
      else None
  | _ => None
  end.

Definition to_snake (name : string) : string :=
  let name := re_sub match_upper_word name in
  let name := re_sub match_double_underscore name in
  let name := re_sub match_lower_upper name in
  lower name.

(** ** Python values

    [x or d] and [x if x else d] on an optional string: [None] and the
    empty string are both false. *)
Definition truthy (o : option string) : option string :=
  match o with
  | Some EmptyString => None
  | _ => o
  end.

Definition or_else (o : option string) (d : string) : string :=
  match truthy o with
  | Some s => s
  | None => d
  end.

(** An optional string inside an f-string: [None] prints as its name. *)
Definition format_opt (o : option string) : string :=
  match o with
  | Some s => s
  | None => "None"
  end.

(** ** Generated models *)

(** [Union[str, List[str]]]. *)
Inductive FromName :=
| FromStr (p : string)
| FromList (ps : list string).

Module AwsProperty.

Record t := mk {
  name : string;
  from_name : FromName;
  type : string;
  description : string;
  is_array : bool;
  is_complex : bool;
  field_default : option string;
  extractor : option string
}.

Definition assignment (self : t) : string :=
  let default :=
    or_else (field_default self)
            (if is_array self then "factory=list" else "default=None") in
  "field(" +:+ default +:+ ")".


Definition mapping (self : t) : string :=
  match truthy (extractor self) with
  | Some e => quote +:+ name self +:+ quote +:+ ": " +:+ e
  | None =>
      let from_p :=
        match from_name self with
        | FromList ps => ps
        | FromStr p => [p]
        end in
      let from_p_path := join "," (map (λ p, quote +:+ p +:+ quote) from_p) in
      let base := quote +:+ name self +:+ quote +:+ ": S(" +:+ from_p_path in
      if is_array self && is_complex self
      then base +:+ ", default=[]) >> ForallBend(" +:+ type self +:+ ".mapping)"
      else if is_array self
      then base +:+ ", default=[])"
      else if is_complex self
      then base +:+ ") >> Bend(" +:+ type self +:+ ".mapping)"
      else base +:+ ")"
  end.

End AwsProperty.


Module AwsModel.

Record t := mk {
  name : string;
  props : list AwsProperty.t;
  aggregate_root : bool;
  base_class : option string;
  api_info : option (string * string * string)
}.






End AwsModel.

Module AwsResotoModel.

Record t := mk {
  api_action : string;
  result_property : string;
  result_shape : string;
  prefix : option string;
  prop_prefix : option string;
  name : option string;
  base : option string
}.

End AwsResotoModel.

(** ** The schema

    botocore keeps a service's shapes in a dictionary keyed by shape name;
    a member, element, key or value is a reference to another entry, so a
    shape may be reached from many places and may reach itself. The class
    of a shape object ([StringShape], [ListShape], [MapShape],
    [StructureShape] or plain [Shape]) is what [isinstance] tests. A
    shape object carries the documentation of the entry it was resolved
    from; the text plays no part in the traversal. *)
Inductive ShapeClass :=
| StringShape
| ListShape (member : string)
| MapShape (key value : string)
| StructureShape (members : list (string * string))
| OtherShape.

Record ShapeDef := mkShapeDef {
  def_type_name : string;
  def_documentation : string;
  def_class : ShapeClass
}.

Module Shape.

Record t := mk {
  name : string;
  type_name : string;
  documentation : string;
  clazz : ShapeClass
}.

End Shape.

Abbreviation ServiceModel := (gmap string ShapeDef).

(** ** Exceptions *)
Inductive error :=
| OutOfFuel
| NoShapeFoundError (shape_name : string)
| AssertionError (key_name : string)
| NotImplementedError (prop_shape : Shape.t).

Inductive result (A : Type) :=
| Ok (a : A)
| Err (e : error).

Arguments Ok {A} a.
Arguments Err {A} e.

#[export] Instance result_ret : MRet result := λ A a, Ok a.
#[export] Instance result_bind : MBind result := λ A B f r,
  match r with
  | Ok a => f a
  | Err e => Err e
  end.

(** [model.shape_for(name)]: the shape object carries the name it was
    looked up by. *)
Definition shape_of (shape_name : string) (d : ShapeDef) : Shape.t :=
  Shape.mk shape_name (def_type_name d) (def_documentation d) (def_class d).

Definition shape_for (model : ServiceModel) (shape_name : string) : result Shape.t :=
  match model !! shape_name with
  | Some d => Ok (shape_of shape_name d)
  | None => Err (NoShapeFoundError shape_name)
  end.

(** [shape.members]: every member reference is resolved when the mapping
    is built. *)
Fixpoint resolve_members (model : ServiceModel) (refs : list (string * string))
  : result (list (string * Shape.t)) :=
  match refs with
  | [] => Ok []
  | (member_name, ref) :: rest =>
      s ← shape_for model ref;
      ms ← resolve_members model rest;
      Ok ((member_name, s) :: ms)
  end.

(** ** Type normalisation *)

Definition simple_type_map_literal : list (string * string) :=
  [ ("Long", "int");
    ("Float", "float");
    ("Double", "float");
    ("Integer", "int");
    ("Boolean", "bool");
    ("String", "str");
    ("DateTime", "datetime");
    ("Timestamp", "datetime");
    ("TagsMap", "Dict[str, str]");
    ("MillisecondDateTime", "datetime") ].

(** The literal, then [simple_type_map |= {k.lower(): v ...}]: on a shared
    key the right operand of [|=] wins. *)
Definition simple_type_map : gmap string string :=
  list_to_map (map (λ kv, (lower kv.1, kv.2)) simple_type_map_literal)
    ∪ list_to_map simple_type_map_literal.

Definition ignore_props : gset string := {["Tags"]} ∪ {["tags"]}.

Definition simple_shape (s : Shape.t) : option string :=
  match Shape.clazz s with
  | StringShape => Some "str"
  | _ =>
      match truthy (simple_type_map !! Shape.name s) with
      | Some simple => Some simple
      | None => truthy (simple_type_map !! Shape.type_name s)
      end
  end.

(** [type_name] reads [prefix] as it stands when the call is made: the
    parameter itself ([None] when the caller gave none) before
    [prefix = prefix or ""], the string after it. *)
Definition type_name (prefix : option string) (s : Shape.t) : string :=
  match truthy (simple_shape s) with
  | Some spl => spl
  | None => "Aws" +:+ format_opt prefix +:+ Shape.name s
  end.

Definition complex_simple_shape (model : ServiceModel) (s : Shape.t)
  : result (option (string * string)) :=
  match Shape.clazz s with
  | StructureShape refs =>
      members ← resolve_members model refs;
      match members with
      | [(p_name, p_shape)] =>
          match truthy (simple_shape p_shape) with
          | Some p_simple => Ok (Some (p_name, p_simple))
          | None => Ok None
          end
      | _ => Ok None
      end
  | _ => Ok None
  end.

(** ** The model compiler *)

(** What one run of [clazz_model] leaves behind: the models it returns and
    the shared [visited] set as it has mutated it. *)
Definition compiled : Type := list AwsModel.t * gset string.

(** The loop variables of the walk over [shape.members.items()]. *)
Record loop_state := mkLoop {
  visited_of : gset string;
  result_of : list AwsModel.t;
  props_of : list AwsProperty.t
}.

Definition append_prop (st : loop_state) (p : AwsProperty.t) : loop_state :=
  mkLoop (visited_of st) (result_of st) (props_of st ++ [p]).

(** [result.extend(clazz_model(...))] followed by [props.append(p)]. *)
Definition extend_append (st : loop_state) (c : compiled) (p : AwsProperty.t) : loop_state :=
  mkLoop c.2 (result_of st ++ c.1) (props_of st ++ [p]).

Definition forall_extractor (name prop_name : string) : string :=
  "S(" +:+ quote +:+ name +:+ quote +:+ ", default=[]) >> ForallBend(S("
    +:+ quote +:+ prop_name +:+ quote +:+ "))".

(** The body of the loop for one member. [recurse s visited] stands for
    [clazz_model(model, s, visited, prefix)]; [prefix] and [prop_prefix]
    are the strings left by [prefix or ""] and [prop_prefix or ""]. *)
Definition process_member
    (recurse : Shape.t → gset string → result compiled)
    (model : ServiceModel) (prefix prop_prefix : string)
    (st : loop_state) (member : string * Shape.t) : result loop_state :=
  let '(name, prop_shape) := member in
  let prop := to_snake name in
  let doc := Shape.documentation prop_shape in
  if decide (prop ∈ ignore_props) then Ok st
  else
    match truthy (simple_shape prop_shape) with
    | Some simple =>
        Ok (append_prop st
              (AwsProperty.mk (prop_prefix +:+ prop) (FromStr name) simple doc
                 false false None None))
    | None =>
        match Shape.clazz prop_shape with
        | ListShape member_ref =>
            inner ← shape_for model member_ref;
            match truthy (simple_shape inner) with
            | Some simple =>
                Ok (append_prop st
                      (AwsProperty.mk (prop_prefix +:+ prop) (FromStr name) simple doc
                         true false None None))
            | None =>
                simple_path ← complex_simple_shape model inner;
                match simple_path with
                | Some (prop_name, prop_type) =>
                    Ok (append_prop st
                          (AwsProperty.mk (prop_prefix +:+ prop)
                             (FromList [name; prop_name]) prop_type doc
                             true false None
                             (Some (forall_extractor name prop_name))))
                | None =>
                    nested ← recurse inner (visited_of st);
                    Ok (extend_append st nested
                          (AwsProperty.mk (prop_prefix +:+ prop) (FromStr name)
                             (type_name (Some prefix) inner) doc
                             true true None None))
                end
            end
        | MapShape key_ref value_ref =>
            key ← shape_for model key_ref;
            match truthy (simple_shape key) with
            | None => Err (AssertionError (Shape.name key))
            | Some key_type =>
                value ← shape_for model value_ref;
                let value_type := type_name (Some prefix) value in
                nested ← recurse value (visited_of st);
                Ok (extend_append st nested
                      (AwsProperty.mk (prop_prefix +:+ prop) (FromStr name)
                         ("Dict[" +:+ key_type +:+ ", " +:+ value_type +:+ "]") doc
                         false false None None))
            end
        | StructureShape _ =>
            maybe_simple ← complex_simple_shape model prop_shape;
            match maybe_simple with
            | Some (s_prop_name, s_prop_type) =>
                Ok (append_prop st
                      (AwsProperty.mk (prop_prefix +:+ prop)
                         (FromList [name; s_prop_name]) s_prop_type doc
                         false false None None))
            | None =>
                nested ← recurse prop_shape (visited_of st);
                Ok (extend_append st nested
                      (AwsProperty.mk (prop_prefix +:+ prop) (FromStr name)
                         (type_name (Some prefix) prop_shape) doc
                         false true None None))
            end
        | _ => Err (NotImplementedError prop_shape)
        end
    end.

(** [for name, prop_shape in shape.members.items(): ...]; an exception
    leaves the loop at once. *)
Fixpoint members_loop
    (recurse : Shape.t → gset string → result compiled)
    (model : ServiceModel) (prefix prop_prefix : string)
    (st : loop_state) (members : list (string * Shape.t)) : result loop_state :=
  match members with
  | [] => Ok st
  | member :: rest =>
      st' ← process_member recurse model prefix prop_prefix st member;
      members_loop recurse model prefix prop_prefix st' rest
  end.

(** [clazz_model]. The recursion of the source is bounded here by [fuel];
    [clazz_model_terminates] shows that the bound is never met once
    [fuel] exceeds the number of shapes of the schema by two. *)
Fixpoint clazz_model (fuel : nat) (model : ServiceModel) (shape : Shape.t)
    (visited : gset string)
    (prefix prop_prefix clazz_name base_class : option string)
    (aggregate_root : bool) (api_info : option (string * string * string))
  : result compiled :=
  match fuel with
  | O => Err OutOfFuel
  | S fuel' =>
      if decide (type_name prefix shape ∈ visited) then Ok ([], visited)
      else
        let visited := {[type_name prefix shape]} ∪ visited in
        let prefix := or_else prefix EmptyString in
        let prop_prefix := or_else prop_prefix EmptyString in
        match Shape.clazz shape with
        | StructureShape refs =>
            members ← resolve_members model refs;
            st ← members_loop
                   (λ s v, clazz_model fuel' model s v (Some prefix) None None None false None)
                   model prefix prop_prefix (mkLoop visited [] []) members;
            let clazz_name := or_else clazz_name (type_name (Some prefix) shape) in
            Ok (result_of st
                  ++ [AwsModel.mk clazz_name (props_of st) aggregate_root base_class api_info],
                visited_of st)
        | _ => Ok ([], visited)
        end
  end.

(** ** The root driver *)

(** [for ep in endpoint: ...] for one service. *)
Fixpoint endpoints_loop (fuel : nat) (name : string) (sm : ServiceModel)
    (st : compiled) (endpoint : list AwsResotoModel.t) : result compiled :=
  match endpoint with
  | [] => Ok st
  | ep :: rest =>
      shape ← shape_for sm (AwsResotoModel.result_shape ep);
      c ← clazz_model fuel sm shape st.2
            (AwsResotoModel.prefix ep) (AwsResotoModel.prop_prefix ep)
            (AwsResotoModel.name ep) (AwsResotoModel.base ep) true
            (Some (name, AwsResotoModel.api_action ep, AwsResotoModel.result_property ep));
      endpoints_loop fuel name sm (st.1 ++ c.1, c.2) rest
  end.

(** [for name, endpoint in models.items(): ...]. *)
Fixpoint services_loop (fuel : nat) (service_model : string → ServiceModel)
    (st : compiled) (models : list (string * list AwsResotoModel.t)) : result compiled :=
  match models with
  | [] => Ok st
  | (name, endpoint) :: rest =>
      st' ← endpoints_loop fuel name (service_model name) st endpoint;
      services_loop fuel service_model st' rest
  end.

(** [all_models], over the schemas [service_model] provides and the table
    [models] of configured roots: [visited] and [result] start empty. *)
Definition all_models (fuel : nat) (service_model : string → ServiceModel)
    (models : list (string * list AwsResotoModel.t)) : result (list AwsModel.t) :=
  st ← services_loop fuel service_model ([], ∅) models;
  Ok st.1.

(** ** What [isinstance] and the classification of a member test *)

Definition is_structure (s : Shape.t) : bool :=
  match Shape.clazz s with StructureShape _ => true | _ => false end.

Definition is_list (s : Shape.t) : bool :=
  match Shape.clazz s with ListShape _ => true | _ => false end.

Definition is_map (s : Shape.t) : bool :=
  match Shape.clazz s with MapShape _ _ => true | _ => false end.

(** A member shape the loop has no rule for: it does not normalise to a
    scalar and is neither a list, a map nor a record. *)
Definition unsupported (s : Shape.t) : Prop :=
  truthy (simple_shape s) = None ∧
  is_list s = false ∧ is_map s = false ∧ is_structure s = false.

(** The recursive call [clazz_model(model, s, visited, prefix)]. *)
Definition nested_call (fuel : nat) (model : ServiceModel) (prefix : string)
  : Shape.t → gset string → result compiled :=
  λ s v, clazz_model fuel model s v (Some prefix) None None None false None.

(** ** Sample schemas *)

Definition shape_def (type_name : string) (c : ShapeClass) : ShapeDef :=
  mkShapeDef type_name EmptyString c.

(** The widget of the end-to-end scenario: two scalars and a one-member
    envelope. *)
Definition widget_schema : ServiceModel :=
  list_to_map
    [ ("String", shape_def "string" StringShape);
      ("Integer", shape_def "integer" OtherShape);
      ("Owner", shape_def "structure" (StructureShape [("Name", "String")]));
      ("Widget", shape_def "structure"
                   (StructureShape [("Id", "String"); ("Size", "Integer"); ("Owner", "Owner")])) ].

Definition widget_spec : AwsResotoModel.t :=
  AwsResotoModel.mk "list-widgets" "Widgets" "Widget" (Some "Demo") None None None.

(** A record that holds a list of itself. *)
Definition node_schema : ServiceModel :=
  list_to_map
    [ ("NodeList", shape_def "list" (ListShape "Node"));
      ("Node", shape_def "structure" (StructureShape [("Children", "NodeList")])) ].

(** The root specification with every optional argument left out. *)
Definition node_spec : AwsResotoModel.t :=
  AwsResotoModel.mk "list-nodes" "Nodes" "Node" None None None None.

(** A map from strings to one-member envelopes. *)
Definition registry_schema : ServiceModel :=
  list_to_map
    [ ("String", shape_def "string" StringShape);
      ("Owner", shape_def "structure" (StructureShape [("Name", "String")]));
      ("OwnerMap", shape_def "map" (MapShape "String" "Owner"));
      ("Registry", shape_def "structure"
                     (StructureShape [("Owners", "OwnerMap"); ("Id", "String")])) ].

Definition registry_spec : AwsResotoModel.t :=
  AwsResotoModel.mk "list-registries" "Registries" "Registry" (Some "Demo") None None None.

(** A string-keyed map whose values hold a map keyed by a record. *)
Definition index_schema : ServiceModel :=
  list_to_map
    [ ("String", shape_def "string" StringShape);
      ("Pair", shape_def "structure" (StructureShape [("A", "String"); ("B", "String")]));
      ("PairMap", shape_def "map" (MapShape "Pair" "String"));
      ("Bucket", shape_def "structure"
                   (StructureShape [("ByPair", "PairMap"); ("Id", "String")]));
      ("BucketMap", shape_def "map" (MapShape "String" "Bucket"));
      ("Index", shape_def "structure" (StructureShape [("Buckets", "BucketMap")])) ].

(** A record with a binary member. *)
Definition blob_schema : ServiceModel :=
  list_to_map
    [ ("String", shape_def "string" StringShape);
      ("Blob", shape_def "blob" OtherShape);
      ("Document", shape_def "structure"
                     (StructureShape [("Id", "String"); ("Body", "Blob"); ("Title", "String")])) ].

Definition document_spec : AwsResotoModel.t :=
  AwsResotoModel.mk "list-documents" "Documents" "Document" (Some "Demo") None None None.


(** ** Predicates of the statements *)

(** A shape object as the schema hands it out. *)
Definition in_model (model : ServiceModel) (s : Shape.t) : Prop :=
  shape_for model (Shape.name s) = Ok s.

(** The canonical scalar names: what [simple_shape] can return. *)
Definition scalar_names : list string :=
  ["int"; "float"; "bool"; "str"; "datetime"; "Dict[str, str]"].

(** A record of the schema that gets a class of its own when compiled under
    [prefix], and the name of that class. *)
Definition record_name (model : ServiceModel) (prefix : string) (X : string) : Prop :=
  ∃ s, in_model model s ∧ is_structure s = true ∧ truthy (simple_shape s) = None
       ∧ X = type_name (Some prefix) s.

(** A field mentions the class [X]: as the class of its value or of its
    elements ([is_complex]), or as the value type of a mapping. *)
Definition field_refers (p : AwsProperty.t) (X : string) : Prop :=
  (AwsProperty.is_complex p = true ∧ AwsProperty.type p = X) ∨
  (∃ key_type, key_type ∈ scalar_names ∧
     AwsProperty.type p = "Dict[" +:+ key_type +:+ ", " +:+ X +:+ "]").

(** The field the loop emits after it has recursed into [target]. *)
Definition nested_field (prefix : string) (target : Shape.t) (p : AwsProperty.t) : Prop :=
  (AwsProperty.is_complex p = true ∧ AwsProperty.type p = type_name (Some prefix) target) ∨
  (AwsProperty.is_complex p = false ∧
   ∃ key_type, key_type ∈ scalar_names ∧
     AwsProperty.type p
     = "Dict[" +:+ key_type +:+ ", " +:+ type_name (Some prefix) target +:+ "]").

(** The outcomes of one round of the loop over the members. *)
Inductive member_step (recurse : Shape.t → gset string → result compiled)
    (model : ServiceModel) (prefix : string) (st : loop_state) (prop_shape : Shape.t)
  : result loop_state → Prop :=
| step_ignored :
    member_step recurse model prefix st prop_shape (Ok st)
| step_plain p :
    AwsProperty.is_complex p = false →
    AwsProperty.type p ∈ scalar_names →
    member_step recurse model prefix st prop_shape (Ok (append_prop st p))
| step_nested target c p :
    in_model model target →
    recurse target (visited_of st) = Ok c →
    nested_field prefix target p →
    member_step recurse model prefix st prop_shape (Ok (extend_append st c p))
| step_nested_err target e :
    in_model model target →
    recurse target (visited_of st) = Err e →
    member_step recurse model prefix st prop_shape (Err e)
| step_no_shape n :
    member_step recurse model prefix st prop_shape (Err (NoShapeFoundError n))
| step_assertion k :
    member_step recurse model prefix st prop_shape (Err (AssertionError k))
| step_unsupported :
    unsupported prop_shape →
    member_step recurse model prefix st prop_shape (Err (NotImplementedError prop_shape)).

(** The qualified type names of all shapes of a schema under [prefix]: the
    finite set the recursive calls draw the new entries of [visited] from. *)
Definition type_names (model : ServiceModel) (prefix : string) : gset string :=
  list_to_set (map (λ kd, type_name (Some prefix) (shape_of kd.1 kd.2)) (map_to_list model)).

(** A result meets [P] when it is a value and [E] when it is an exception. *)
Definition result_sat {A} (P : A → Prop) (E : error → Prop) (r : result A) : Prop :=
  match r with
  | Ok a => P a
  | Err e => E e
  end.


(** A record with exactly one member, whose shape normalises to the scalar
    [scalar]: the envelope the loop collapses. *)
Definition single_scalar_record (model : ServiceModel) (s : Shape.t)
    (member_name scalar : string) : Prop :=
  ∃ ref member_shape,
    Shape.clazz s = StructureShape [(member_name, ref)] ∧
    shape_for model ref = Ok member_shape ∧
    truthy (simple_shape member_shape) = Some scalar.

Definition plain_prop (name from_name type : string) : AwsProperty.t :=
  AwsProperty.mk name (FromStr from_name) type EmptyString false false None None.

(** What the run over the widget returns. *)
Definition widget_root : AwsModel.t :=
  AwsModel.mk "AwsDemoWidget"
    [ plain_prop "id" "Id" "str";
      plain_prop "size" "Size" "int";
      AwsProperty.mk "owner" (FromList ["Owner"; "Name"]) "str" EmptyString
        false false None None ]
    true None (Some ("demo", "list-widgets", "Widgets")).

(** What the run over the registry returns. *)
Definition registry_models : list AwsModel.t :=
  [ AwsModel.mk "AwsDemoOwner" [plain_prop "name" "Name" "str"] false None None;
    AwsModel.mk "AwsDemoRegistry"
      [ plain_prop "owners" "Owners" "Dict[str, AwsDemoOwner]";
        plain_prop "id" "Id" "str" ]
      true None (Some ("demo", "list-registries", "Registries")) ].

(** The class of the self-referencing record, as the nested call and as the
    root call build it. *)
Definition node_model (aggregate_root : bool)
    (api_info : option (string * string * string)) : AwsModel.t :=
  AwsModel.mk "AwsNode"
    [ AwsProperty.mk "children" (FromStr "Children") "AwsNode" EmptyString
        true true None None ]
    aggregate_root None api_info.



(** ** Predicates of the deduplication invariant *)

Definition model_names (ms : list AwsModel.t) : list string := map AwsModel.name ms.


(** Every class of a record that a field of [props] mentions is in [v]. *)
Definition props_visited (model : ServiceModel) (prefix : string)
    (props : list AwsProperty.t) (v : gset string) : Prop :=
  ∀ f X, f ∈ props → field_refers f X → record_name model prefix X → X ∈ v.

(** The models [ms] are what a stretch of the run that took [visited] from
    [v] to [v'] has returned: their names are distinct, were added to
    [visited] in this stretch, cover every class of a record added in it,
    and their fields mention visited classes only. *)
Definition compiled_from (model : ServiceModel) (prefix : string)
    (v : gset string) (ms : list AwsModel.t) (v' : gset string) : Prop :=
  v ⊆ v' ∧
  NoDup (model_names ms) ∧
  (∀ n, n ∈ model_names ms → n ∈ v' ∧ n ∉ v) ∧
  (∀ X, record_name model prefix X → X ∈ v' → X ∉ v → X ∈ model_names ms) ∧
  (∀ m, m ∈ ms → props_visited model prefix (AwsModel.props m) v').

(** Every root of the table is read from the schema [sm], with the
    explicit prefix [prefix] and without a class name of its own. *)
Definition uniform_roots (service_model : string → ServiceModel)
    (models : list (string * list AwsResotoModel.t))
    (sm : ServiceModel) (prefix : string) : Prop :=
  Forall (λ entry,
            Forall (λ ep, service_model entry.1 = sm
                          ∧ AwsResotoModel.prefix ep = Some prefix
                          ∧ AwsResotoModel.name ep = None) entry.2)
         models.

(** ** The table of roots

    The services of the table and the roots that are switched on. *)
Definition models : list (string * list AwsResotoModel.t) :=
  [ ("accessanalyzer", []);
    ("acm", []);
    ("acm-pca", []);
    ("alexaforbusiness", []);
    ("amp", []);
    ("amplify", []);
    ("apigateway", []);
    ("apigatewayv2", []);
    ("appconfig", []);
    ("appflow", []);
    ("appintegrations", []);
    ("application-insights", []);
    ("applicationcostprofiler", []);
    ("appmesh", []);
    ("apprunner", []);
    ("appstream", []);
    ("appsync", []);
    ("athena", []);
    ("autoscaling", []);
    ("ec2", []);
    ("route53", []);
    ("iam",
     [ AwsResotoModel.mk "list-access-keys" "AccessKeyMetadata" "AccessKeyMetadata"
         (Some "Iam") (Some "access_key_") None None ]) ].

(** A record that three members of the root reach: two directly, one
    through a list. *)
Definition box_schema : ServiceModel :=
  list_to_map
    [ ("Integer", shape_def "integer" OtherShape);
      ("Dim", shape_def "structure" (StructureShape [("W", "Integer"); ("H", "Integer")]));
      ("DimList", shape_def "list" (ListShape "Dim"));
      ("Box", shape_def "structure"
                (StructureShape [("Outer", "Dim"); ("Inner", "Dim"); ("Parts", "DimList")])) ].



Definition outer_prop : AwsProperty.t :=
  AwsProperty.mk "outer" (FromStr "Outer") "AwsDemoDim" EmptyString false true None None.

Definition box_model : AwsModel.t :=
  AwsModel.mk "AwsDemoBox"
    [ outer_prop;
      AwsProperty.mk "inner" (FromStr "Inner") "AwsDemoDim" EmptyString false true None None;
      AwsProperty.mk "parts" (FromStr "Parts") "AwsDemoDim" EmptyString true true None None ]
    true None (Some ("demo", "list-boxes", "Boxes")).

Definition box_models : list AwsModel.t :=
  [ AwsModel.mk "AwsDemoDim" [plain_prop "w" "W" "int"; plain_prop "h" "H" "int"]
      false None None;
    box_model ].

(** ** Proof steps *)

(** Case analysis along the branches of [process_member] in [H]. *)
Ltac split_member H :=
  repeat match type of H with
    | context [decide ?P] => destruct (decide P)
    | context [match truthy ?x with _ => _ end] => destruct (truthy x) eqn:?
    | context [match Shape.clazz ?x with _ => _ end] => destruct (Shape.clazz x) eqn:?
    | context [shape_for ?m ?r ≫= _] => destruct (shape_for m r) eqn:?; simpl in H
    | context [complex_simple_shape ?m ?r ≫= _] =>
        destruct (complex_simple_shape m r) as [[[? ?]|]|] eqn:?; simpl in H
    | context [?recurse ?t (visited_of ?st) ≫= _] =>
        destruct (recurse t (visited_of st)) eqn:?; simpl in H
    end.

(** The six cases of a member of [scalar_names]. *)
Ltac scalar_cases H :=
  unfold scalar_names in H;
  repeat (apply elem_of_cons in H as [->|H]); [..|by apply elem_of_nil in H].

(** ** Predicates of the further properties *)

(** No character of [[A-Z]] occurs in the string. *)
Fixpoint no_upper (s : string) : bool :=
  match s with
  | EmptyString => true
  | String c rest => negb (is_upper c) && no_upper rest
  end.

(** The first segment of a source path. *)
Definition source_head (f : FromName) : option string :=
  match f with
  | FromStr p => Some p
  | FromList (p :: _) => Some p
  | FromList [] => None
  end.

(** The forms of a property the loop builds: no default of its own, and
    either a one-segment path without extractor or the two-segment path of
    a collapsed record, with the extractor of the array form when it is an
    array. *)
Definition well_formed_prop (p : AwsProperty.t) : Prop :=
  AwsProperty.field_default p = None ∧
  ((∃ src, AwsProperty.from_name p = FromStr src ∧ AwsProperty.extractor p = None)
   ∨ (∃ src inner,
        AwsProperty.from_name p = FromList [src; inner] ∧
        AwsProperty.is_complex p = false ∧
        AwsProperty.extractor p
        = if AwsProperty.is_array p then Some (forall_extractor src inner) else None)).

(** An entry a recursive call returns: not a root, without base class and
    call descriptor, named by the qualified type name of a record of the
    schema. *)
Definition nested_entry (model : ServiceModel) (prefix : string) (m : AwsModel.t) : Prop :=
  AwsModel.aggregate_root m = false ∧
  AwsModel.base_class m = None ∧
  AwsModel.api_info m = None ∧
  ∃ s, in_model model s ∧ is_structure s = true
       ∧ AwsModel.name m = type_name (Some prefix) s.

(** What an exception says about the schema: the shape name that was
    looked up is absent; the key named is the key of a map shape of the
    schema and does not normalise to a scalar; the shape reported is a
    shape of the schema the loop has no rule for. *)
Definition sound_error (model : ServiceModel) (e : error) : Prop :=
  match e with
  | OutOfFuel => True
  | NoShapeFoundError n => model !! n = None
  | AssertionError k =>
      ∃ key owner value_ref,
        in_model model key ∧ Shape.name key = k ∧
        truthy (simple_shape key) = None ∧
        in_model model owner ∧ Shape.clazz owner = MapShape k value_ref
  | NotImplementedError s => in_model model s ∧ unsupported s
  end.

(** The type of a field the loop builds under [prefix]: a canonical
    scalar on a field that is not complex, or the type the recursion into
    a shape of the schema gives: its qualified type name on a complex
    field, a mapping from a scalar to it otherwise. *)
Definition typed_prop (model : ServiceModel) (prefix : string) (p : AwsProperty.t) : Prop :=
  (AwsProperty.is_complex p = false ∧ AwsProperty.type p ∈ scalar_names)
  ∨ ∃ target, in_model model target ∧ nested_field prefix target p.

(** An entry compiled from a record of the schema by a recursive call: its
    fields are those of the members that are not ignored, named by the
    snake-case name alone. *)
Definition unprefixed_entry (model : ServiceModel) (prefix : string) (m : AwsModel.t) : Prop :=
  ∃ s refs,
    in_model model s ∧ Shape.clazz s = StructureShape refs ∧
    AwsModel.name m = type_name (Some prefix) s ∧
    map (λ p, (AwsProperty.name p, source_head (AwsProperty.from_name p))) (AwsModel.props m)
    = map (λ r, (to_snake r.1, Some r.1))
          (filter (λ r : string * string, to_snake r.1 ∉ ignore_props) refs).

(** Two roots that name the same result shape under the same prefix. *)
Definition same_root (ep1 ep2 : AwsResotoModel.t) : Prop :=
  AwsResotoModel.result_shape ep1 = AwsResotoModel.result_shape ep2 ∧
  AwsResotoModel.prefix ep1 = AwsResotoModel.prefix ep2.

(** The widget listed a second time, with another class name, base class
    and property prefix. *)
Definition widget_spec_again : AwsResotoModel.t :=
  AwsResotoModel.mk "describe-widgets" "Items" "Widget" (Some "Demo") (Some "widget_")
    (Some "AwsGadget") (Some "BaseGadget").

(** * Gathering the requirements ([tools/requirements.py])

    The script walks the repository for [pyproject.toml] files, gathers
    their dependencies and runs [pip-compile] once for the base set, once
    for every optional group and once for everything. The parsed files
    are the input here; what the script asks of the operating system is
    returned as a list of effects. *)
Module Requirements.

(** A value, or the [KeyError] of a missing key. *)
Inductive outcome (A : Type) : Type :=
| Done (a : A)
| KeyError (key : string).

Arguments Done {A} a.
Arguments KeyError {A} key.

#[export] Instance outcome_ret : MRet outcome := λ A a, Done a.
#[export] Instance outcome_bind : MBind outcome := λ A B f r,
  match r with
  | Done a => f a
  | KeyError k => KeyError k
  end.

(** The [project] table of a [pyproject.toml]: each key may be absent;
    [optional-dependencies] keeps the order of its groups. *)
Record ProjectTable := mkTable {
  table_name : option string;
  table_dependencies : option (list string);
  table_optional_dependencies : option (list (string * list string))
}.

(** [ProjectDefinition]: the parsed file, with or without a [project]
    table. *)
Record ProjectDefinition := mkProject {
  definition : option ProjectTable
}.

Definition project (self : ProjectDefinition) : outcome ProjectTable :=
  match definition self with
  | Some t => Done t
  | None => KeyError "project"
  end.

Definition name (self : ProjectDefinition) : outcome string :=
  t ← project self;
  match table_name t with
  | Some n => Done n
  | None => KeyError "name"
  end.

Definition dependencies (self : ProjectDefinition) : outcome (list string) :=
  t ← project self;
  Done (default [] (table_dependencies t)).

Definition optional_dependencies (self : ProjectDefinition)
  : outcome (list (string * list string)) :=
  t ← project self;
  Done (default [] (table_optional_dependencies t)).

Definition all_dependencies (self : ProjectDefinition) : outcome (list string) :=
  deps ← dependencies self;
  optional ← optional_dependencies self;
  Done (deps ++ List.concat (map snd optional)).

(** [needle in hay] on strings. *)
Fixpoint starts_with (p s : string) : bool :=
  match p, s with
  | EmptyString, _ => true
  | String a p', String b s' => Ascii.eqb a b && starts_with p' s'
  | String _ _, EmptyString => false
  end.

Fixpoint contains (needle hay : string) : bool :=
  starts_with needle hay
  || match hay with
     | EmptyString => false
     | String _ rest => contains needle rest
     end.

Definition filter_out : list string := ["resotolib"; "resoto-plugin-aws"].

Definition filter_dependencies (deps : list string) : list string :=
  List.filter (λ dep, negb (existsb (λ name, contains name dep) filter_out)) deps.



Definition delim (name : option string) : string :=
  match truthy name with
  | Some n => "-" +:+ n
  | None => EmptyString
  end.

Definition in_file (name : option string) : string :=
  "requirements" +:+ delim name +:+ "-in.txt".

Definition out_file (name : option string) : string :=
  "requirements" +:+ delim name +:+ ".txt".


(** [optional_dependencies[name].extend(deps)] on the [defaultdict]: a
    group keeps the place of its first mention. *)
Fixpoint extend_group (name : string) (deps : list string)
    (optional : list (string * list string)) : list (string * list string) :=
  match optional with
  | [] => [(name, deps)]
  | (n, ds) :: rest =>
      if decide (n = name) then (n, ds ++ deps) :: rest
      else (n, ds) :: extend_group name deps rest
  end.

Definition extend_groups (groups : list (string * list string))
    (optional : list (string * list string)) : list (string * list string) :=
  fold_left (λ o g, extend_group g.1 (filter_dependencies g.2) o) groups optional.

(** The first loop of [combine_dependencies]: the base dependencies and
    the groups gathered from the projects. *)
Fixpoint gather (projects : list ProjectDefinition)
    (prod : list string) (optional : list (string * list string))
  : outcome (list string * list (string * list string)) :=
  match projects with
  | [] => Done (prod, optional)
  | p :: rest =>
      deps ← dependencies p;
      groups ← optional_dependencies p;
      gather rest (prod ++ filter_dependencies deps) (extend_groups groups optional)
  end.

(** The calls of [compile_dependencies] that [combine_dependencies]
    makes, in order. *)
Definition combine_calls (projects : list ProjectDefinition)
  : outcome (list (option string * list string)) :=
  st ← gather projects [] [];
  let prod := st.1 in
  let optional := st.2 in
  Done ((None, prod)
          :: map (λ g, (Some g.1, g.2 ++ prod)) optional
          ++ [(Some "all", prod ++ List.concat (map snd optional))]).


(** Two sample projects: a library with a test group, and a plugin that
    depends on the library. *)
Definition lib_project : ProjectDefinition :=
  mkProject (Some (mkTable (Some "resotolib") (Some ["attrs>=22"; "toml"])
                     (Some [("test", ["pytest"; "resotolib[extra]"])]))).

Definition plugin_project : ProjectDefinition :=
  mkProject (Some (mkTable (Some "resoto-plugin-aws") (Some ["resotolib==3.0"; "boto3"])
                     (Some [("test", ["moto"]); ("all", ["black"])]))).

End Requirements.

(** ** Predicates on the gathered requirements *)

(** A requirement string in which no filtered name occurs. *)
Definition kept (dep : string) : Prop :=
  ∀ name a b, name ∈ Requirements.filter_out → dep ≠ a +:+ name +:+ b.

(** The names of the optional groups a project declares. *)
Definition declared_groups (p : Requirements.ProjectDefinition) : list string :=
  match Requirements.definition p with
  | Some t => map fst (default [] (Requirements.table_optional_dependencies t))
  | None => []
  end.

Definition declares (projects : list Requirements.ProjectDefinition) (g : string) : Prop :=
  ∃ p, p ∈ projects ∧ g ∈ declared_groups p.

(** The calls the two sample projects lead to. *)
Definition sample_calls : list (option string * list string) :=
  [ (None, ["attrs>=22"; "toml"; "boto3"]);
    (Some "test", ["pytest"; "moto"; "attrs>=22"; "toml"; "boto3"]);
    (Some "all", ["black"; "attrs>=22"; "toml"; "boto3"]);
    (Some "all", ["attrs>=22"; "toml"; "boto3"; "pytest"; "moto"; "black"]) ].

(** * Properties *)

(** ** Basic facts *)

Lemma or_else_Some (s : string) : or_else (Some s) EmptyString = s.
Proof. by destruct s. Qed.

Lemma bind_Ok {A B} (f : A → result B) (a : A) : (Ok a ≫= f) = f a.
Proof. reflexivity. Qed.

Lemma bind_Err {A B} (f : A → result B) (e : error) : (Err e ≫= f) = Err e.
Proof. reflexivity. Qed.

Lemma bind_Ok_inv {A B} (f : A → result B) (r : result A) (b : B) :
  (r ≫= f) = Ok b → ∃ a, r = Ok a ∧ f a = Ok b.
Proof. destruct r as [a|e]; [eauto | discriminate]. Qed.

Lemma bind_Err_inv {A B} (f : A → result B) (r : result A) (e : error) :
  (r ≫= f) = Err e → r = Err e ∨ ∃ a, r = Ok a ∧ f a = Err e.
Proof. destruct r as [a|e']; [eauto | intros [= ->]; by left]. Qed.

Lemma is_structure_false_clazz (s : Shape.t) :
  is_structure s = false → ∀ refs, Shape.clazz s ≠ StructureShape refs.
Proof. unfold is_structure. intros H refs E. by rewrite E in H. Qed.

(** One step of [clazz_model] on a shape whose name is new. *)
Lemma clazz_model_unfold_new fuel model shape visited prefix prop_prefix
    clazz_name base_class aggregate_root api_info :
  type_name prefix shape ∉ visited →
  clazz_model (S fuel) model shape visited prefix prop_prefix clazz_name base_class
    aggregate_root api_info =
  match Shape.clazz shape with
  | StructureShape refs =>
      members ← resolve_members model refs;
      st ← members_loop (nested_call fuel model (or_else prefix EmptyString)) model
             (or_else prefix EmptyString) (or_else prop_prefix EmptyString)
             (mkLoop ({[type_name prefix shape]} ∪ visited) [] []) members;
      Ok (result_of st
            ++ [AwsModel.mk
                  (or_else clazz_name (type_name (Some (or_else prefix EmptyString)) shape))
                  (props_of st) aggregate_root base_class api_info],
          visited_of st)
  | _ => Ok ([], {[type_name prefix shape]} ∪ visited)
  end.
Proof. intros H. simpl. by rewrite decide_False. Qed.

Lemma clazz_model_unfold_seen fuel model shape visited prefix prop_prefix
    clazz_name base_class aggregate_root api_info :
  type_name prefix shape ∈ visited →
  clazz_model (S fuel) model shape visited prefix prop_prefix clazz_name base_class
    aggregate_root api_info = Ok ([], visited).
Proof. intros H. simpl. by rewrite decide_True. Qed.

(** ** C4 *)

(** C4: the four literal cases of the name transformer: DeleteOnTermination,
    VPCId, IAMInstanceProfile and ID become delete_on_termination, vpc_id,
    iam_instance_profile and id. *)
Theorem to_snake_cases :
  to_snake "DeleteOnTermination" = "delete_on_termination" ∧
  to_snake "VPCId" = "vpc_id" ∧
  to_snake "IAMInstanceProfile" = "iam_instance_profile" ∧
  to_snake "ID" = "id".
Proof. repeat split; reflexivity. Qed.

(** ** C10 *)

(** C10: on a shape that is not a record, [clazz_model] returns no model and
    no error and leaves the shape's qualified type name in [visited]; any
    later call on a shape with the same qualified type name, a record
    included, then returns no model either. *)
Theorem clazz_model_non_record fuel model shape visited prefix prop_prefix
    clazz_name base_class aggregate_root api_info :
  is_structure shape = false →
  clazz_model (S fuel) model shape visited prefix prop_prefix clazz_name base_class
    aggregate_root api_info = Ok ([], {[type_name prefix shape]} ∪ visited)
  ∧ ∀ fuel' model' shape' prefix' prop_prefix' clazz_name' base_class'
      aggregate_root' api_info',
      type_name prefix' shape' = type_name prefix shape →
      clazz_model (S fuel') model' shape' ({[type_name prefix shape]} ∪ visited)
        prefix' prop_prefix' clazz_name' base_class' aggregate_root' api_info'
      = Ok ([], {[type_name prefix shape]} ∪ visited).
Proof.
  intros Hrec. split.
  - destruct (decide (type_name prefix shape ∈ visited)) as [Hin|Hnin].
    + rewrite clazz_model_unfold_seen by done.
      do 2 f_equal. set_solver.
    + rewrite clazz_model_unfold_new by done.
      unfold is_structure in Hrec. by destruct (Shape.clazz shape).
  - intros. apply clazz_model_unfold_seen. set_solver.
Qed.

(** ** Shapes of the schema and scalar names *)

Lemma shape_for_in_model model n s : shape_for model n = Ok s → in_model model s.
Proof.
  unfold in_model, shape_for. destruct (model !! n) as [d|] eqn:E; [|discriminate].
  intros [= <-]. simpl. by rewrite E.
Qed.

Lemma shape_for_name model n s : shape_for model n = Ok s → Shape.name s = n.
Proof.
  unfold shape_for. destruct (model !! n); [|discriminate]. by intros [= <-].
Qed.

Lemma shape_for_error model n e : shape_for model n = Err e → e = NoShapeFoundError n.
Proof. unfold shape_for. destruct (model !! n); [discriminate|]. by intros [= <-]. Qed.

(** Two shape objects of one schema with the same name are the same. *)
Lemma in_model_inj model s1 s2 :
  in_model model s1 → in_model model s2 → Shape.name s1 = Shape.name s2 → s1 = s2.
Proof. unfold in_model. intros H1 H2 E. rewrite E in H1. congruence. Qed.

Lemma resolve_members_in_model model refs members :
  resolve_members model refs = Ok members →
  Forall (λ m, in_model model m.2) members.
Proof.
  revert members. induction refs as [|[n ref] refs IH]; simpl; intros members H.
  - injection H as <-. constructor.
  - apply bind_Ok_inv in H as (s & Hs & H).
    apply bind_Ok_inv in H as (ms & Hms & H). injection H as <-.
    constructor; [by eapply shape_for_in_model | by apply IH].
Qed.

Lemma resolve_members_error model refs e :
  resolve_members model refs = Err e → ∃ n, e = NoShapeFoundError n.
Proof.
  induction refs as [|[n ref] refs IH]; simpl; [discriminate|].
  intros H. apply bind_Err_inv in H as [H|(s & Hs & H)].
  - eauto using shape_for_error.
  - apply bind_Err_inv in H as [H|(ms & Hms & H)]; [auto | discriminate].
Qed.

Lemma simple_type_map_scalar k v : simple_type_map !! k = Some v → v ∈ scalar_names.
Proof.
  unfold simple_type_map. intros H.
  apply lookup_union_Some_raw in H as [H|[_ H]];
    apply elem_of_list_to_map_2 in H; simpl in H;
    repeat (apply elem_of_cons in H as [[= _ ->]|H]; [unfold scalar_names; set_solver|]);
    by apply elem_of_nil in H.
Qed.

Lemma truthy_Some o s : truthy o = Some s → o = Some s.
Proof. destruct o as [[|]|]; simpl; congruence. Qed.

Lemma simple_shape_scalar s t : truthy (simple_shape s) = Some t → t ∈ scalar_names.
Proof.
  intros H%truthy_Some. unfold simple_shape in H.
  assert (Hgen :
    match truthy (simple_type_map !! Shape.name s) with
    | Some simple => Some simple
    | None => truthy (simple_type_map !! Shape.type_name s)
    end = Some t → t ∈ scalar_names).
  { destruct (truthy (simple_type_map !! Shape.name s)) as [x|] eqn:E1.
    - intros [= <-]. apply truthy_Some in E1. eauto using simple_type_map_scalar.
    - intros E2%truthy_Some. eauto using simple_type_map_scalar. }
  destruct (Shape.clazz s); auto.
  injection H as <-. unfold scalar_names. set_solver.
Qed.

Lemma complex_simple_shape_inv model s r :
  complex_simple_shape model s = r →
  (∃ n, r = Err (NoShapeFoundError n)) ∨ r = Ok None ∨
  (∃ p_name p_type, r = Ok (Some (p_name, p_type)) ∧ p_type ∈ scalar_names).
Proof.
  unfold complex_simple_shape. intros <-.
  destruct (Shape.clazz s) as [| | |refs|]; auto.
  destruct (resolve_members model refs) as [members|e] eqn:E; simpl.
  - destruct members as [|[p_name p_shape] [|]]; auto.
    destruct (truthy (simple_shape p_shape)) eqn:Es; auto.
    right; right. eauto using simple_shape_scalar.
  - left. apply resolve_members_error in E as [n ->]. eauto.
Qed.

(** Every round of the loop is one of the outcomes of [member_step]. *)
Lemma process_member_step recurse model prefix prop_prefix st name prop_shape :
  in_model model prop_shape →
  member_step recurse model prefix st prop_shape
    (process_member recurse model prefix prop_prefix st (name, prop_shape)).
Proof.
  intros Hin. unfold process_member.
  destruct (decide (to_snake name ∈ ignore_props)) as [Hig|Hig]; [constructor|].
  destruct (truthy (simple_shape prop_shape)) as [simple|] eqn:Esimple.
  { apply step_plain; [done|]. by eapply simple_shape_scalar. }
  destruct (Shape.clazz prop_shape) as [|member_ref|key_ref value_ref|refs|] eqn:Eclazz.
  - apply step_unsupported. unfold unsupported, is_list, is_map, is_structure.
    by rewrite Eclazz.
  - destruct (shape_for model member_ref) as [inner|e] eqn:Einner; simpl.
    2:{ apply shape_for_error in Einner as ->. constructor. }
    destruct (truthy (simple_shape inner)) as [simple|] eqn:Ei.
    { apply step_plain; [done|]. by eapply simple_shape_scalar. }
    destruct (complex_simple_shape_inv model inner _ eq_refl)
      as [[n ->]|[->|(p_name & p_type & -> & Hp)]]; simpl.
    + constructor.
    + destruct (recurse inner (visited_of st)) as [c|e] eqn:Erec; simpl.
      * eapply step_nested; [by eapply shape_for_in_model | done | by left].
      * eapply step_nested_err; [by eapply shape_for_in_model | done].
    + by apply step_plain.
  - destruct (shape_for model key_ref) as [key|e] eqn:Ekey; simpl.
    2:{ apply shape_for_error in Ekey as ->. constructor. }
    destruct (truthy (simple_shape key)) as [key_type|] eqn:Ek; [|constructor].
    destruct (shape_for model value_ref) as [value|e] eqn:Evalue; simpl.
    2:{ apply shape_for_error in Evalue as ->. constructor. }
    destruct (recurse value (visited_of st)) as [c|e] eqn:Erec; simpl.
    + eapply step_nested; [by eapply shape_for_in_model | done |].
      right. split; [done|]. eauto using simple_shape_scalar.
    + eapply step_nested_err; [by eapply shape_for_in_model | done].
  - destruct (complex_simple_shape_inv model prop_shape _ eq_refl)
      as [[n ->]|[->|(p_name & p_type & -> & Hp)]]; simpl.
    + constructor.
    + destruct (recurse prop_shape (visited_of st)) as [c|e] eqn:Erec; simpl.
      * eapply step_nested; [done | done | by left].
      * eapply step_nested_err; [done | done].
    + by apply step_plain.
  - apply step_unsupported. unfold unsupported, is_list, is_map, is_structure.
    by rewrite Eclazz.
Qed.

(** ** The loop over the members *)

Lemma members_loop_cons recurse model prefix prop_prefix st m members :
  members_loop recurse model prefix prop_prefix st (m :: members) =
  st' ← process_member recurse model prefix prop_prefix st m;
  members_loop recurse model prefix prop_prefix st' members.
Proof. reflexivity. Qed.

(** An invariant of the rounds is an invariant of the loop. *)
Lemma members_loop_sat recurse model prefix prop_prefix
    (I : loop_state → Prop) (E : error → Prop) :
  (∀ st sh r, I st → in_model model sh →
     member_step recurse model prefix st sh r → result_sat I E r) →
  ∀ members st,
    Forall (λ m, in_model model m.2) members → I st →
    result_sat I E (members_loop recurse model prefix prop_prefix st members).
Proof.
  intros Hstep. induction members as [|[name sh] members IH]; intros st Hall HI.
  - done.
  - inversion_clear Hall as [|? ? Hsh Hrest]. simpl in Hsh.
    rewrite members_loop_cons.
    pose proof (Hstep st sh _ HI Hsh
      (process_member_step recurse model prefix prop_prefix st name sh Hsh)) as Hr.
    destruct (process_member recurse model prefix prop_prefix st (name, sh)) as [st'|e];
      [by apply IH | done].
Qed.


(** The loop as it stands after [result_sat]: a value with the invariant. *)
Lemma members_loop_inv recurse model prefix prop_prefix
    (I : loop_state → Prop) members st st' :
  (∀ st sh r, I st → in_model model sh →
     member_step recurse model prefix st sh r → result_sat I (λ _, True) r) →
  Forall (λ m, in_model model m.2) members → I st →
  members_loop recurse model prefix prop_prefix st members = Ok st' → I st'.
Proof.
  intros Hstep Hall HI Hloop.
  pose proof (members_loop_sat recurse model prefix prop_prefix I (λ _, True)
                Hstep members st Hall HI) as Hsat.
  by rewrite Hloop in Hsat.
Qed.

(** ** [visited] only grows *)

Lemma clazz_model_visited_mono fuel :
  ∀ model shape visited prefix prop_prefix clazz_name base_class aggregate_root api_info c,
    clazz_model fuel model shape visited prefix prop_prefix clazz_name base_class
      aggregate_root api_info = Ok c →
    visited ⊆ c.2.
Proof.
  induction fuel as [|fuel IH]; intros * H; [discriminate|].
  destruct (decide (type_name prefix shape ∈ visited)) as [Hin|Hnin].
  - rewrite clazz_model_unfold_seen in H by done. by injection H as <-.
  - rewrite clazz_model_unfold_new in H by done.
    destruct (Shape.clazz shape) as [| | |refs|];
      try (injection H as <-; simpl; set_solver).
    apply bind_Ok_inv in H as (members & Hmem & H).
    apply bind_Ok_inv in H as (st & Hloop & H). injection H as <-. simpl.
    eapply (members_loop_inv _ _ _ _ (λ st, visited ⊆ visited_of st)) in Hloop;
      [done | | by eapply resolve_members_in_model | simpl; set_solver].
    intros st0 sh r HI _ Hstep.
    destruct Hstep as [|p|target c p _ Hrec _| | | |]; simpl; try done.
    apply IH in Hrec. set_solver.
Qed.

(** ** Termination *)

Lemma in_model_lookup model s :
  in_model model s → ∃ d, model !! Shape.name s = Some d ∧ s = shape_of (Shape.name s) d.
Proof.
  unfold in_model, shape_for. destruct (model !! Shape.name s) as [d|]; [|discriminate].
  intros [= E]. eauto.
Qed.

Lemma type_name_in_type_names model prefix s :
  in_model model s → type_name (Some prefix) s ∈ type_names model prefix.
Proof.
  intros (d & Hd & Hs)%in_model_lookup. unfold type_names.
  apply elem_of_list_to_set, list_elem_of_fmap.
  exists (Shape.name s, d). split; [by rewrite Hs at 1 | by apply elem_of_map_to_list].
Qed.

Lemma size_list_to_set_le (l : list string) : size (list_to_set l : gset string) ≤ List.length l.
Proof.
  induction l as [|x l IH]; simpl.
  - change (size (∅ : gset string) ≤ 0). by rewrite size_empty.
  - rewrite size_union_alt, size_singleton.
    pose proof (subseteq_size (list_to_set l ∖ {[x]}) (list_to_set l : gset string)) as Hle.
    specialize (Hle ltac:(set_solver)). lia.
Qed.

Lemma type_names_size model prefix : size (type_names model prefix) ≤ size model.
Proof.
  unfold type_names. etrans; [apply size_list_to_set_le|].
  by rewrite length_map, length_map_to_list.
Qed.

(** Adding a name of the universe that was not visited leaves fewer names
    to visit. *)
Lemma unvisited_decreases (U visited : gset string) (x : string) :
  x ∈ U → x ∉ visited → size (U ∖ ({[x]} ∪ visited)) < size (U ∖ visited).
Proof. intros HU Hx. apply subset_size. set_solver. Qed.

Lemma unvisited_mono (U v1 v2 : gset string) : v1 ⊆ v2 → size (U ∖ v2) ≤ size (U ∖ v1).
Proof. intros H. apply subseteq_size. set_solver. Qed.

(** Where the recursive calls return, so does the loop. *)
Lemma members_loop_total fuel model prefix prop_prefix members st :
  (∀ s v, in_model model s → size (type_names model prefix ∖ v) < fuel →
          nested_call fuel model prefix s v ≠ Err OutOfFuel) →
  Forall (λ m, in_model model m.2) members →
  size (type_names model prefix ∖ visited_of st) < fuel →
  members_loop (nested_call fuel model prefix) model prefix prop_prefix st members
    ≠ Err OutOfFuel.
Proof.
  intros Hrec Hall Hsize.
  pose proof (members_loop_sat (nested_call fuel model prefix) model prefix prop_prefix
    (λ st, size (type_names model prefix ∖ visited_of st) < fuel)
    (λ e, e ≠ OutOfFuel)) as Hsat.
  assert (Hstep : ∀ st sh r,
    size (type_names model prefix ∖ visited_of st) < fuel → in_model model sh →
    member_step (nested_call fuel model prefix) model prefix st sh r →
    result_sat (λ st, size (type_names model prefix ∖ visited_of st) < fuel)
               (λ e, e ≠ OutOfFuel) r).
  { intros st0 sh r HI _ Hstep.
    destruct Hstep as [|p|target c p _ Hc _|target e Ht He| | |]; simpl; try done.
    - unfold nested_call in Hc. apply clazz_model_visited_mono in Hc.
      eapply Nat.le_lt_trans; [by apply unvisited_mono | done].
    - intros ->. by eapply Hrec. }
  specialize (Hsat Hstep members st Hall Hsize).
  destruct (members_loop _ _ _ _ _ _) as [st'|e]; [done | simpl in Hsat; congruence].
Qed.

Lemma nested_call_total model prefix fuel :
  ∀ s v, in_model model s → size (type_names model prefix ∖ v) < fuel →
         nested_call fuel model prefix s v ≠ Err OutOfFuel.
Proof.
  induction fuel as [|fuel IH]; intros s v Hin Hsize; [lia|].
  unfold nested_call.
  destruct (decide (type_name (Some prefix) s ∈ v)) as [Hseen|Hnew].
  - by rewrite clazz_model_unfold_seen.
  - rewrite clazz_model_unfold_new by done. rewrite or_else_Some.
    destruct (Shape.clazz s) as [| | |refs|]; try done.
    destruct (resolve_members model refs) as [members|e] eqn:Hmem; simpl.
    2:{ apply resolve_members_error in Hmem as [n ->]. done. }
    pose proof (members_loop_total fuel model prefix EmptyString members
      (mkLoop ({[type_name (Some prefix) s]} ∪ v) [] []) IH
      (resolve_members_in_model _ _ _ Hmem)) as Hloop.
    simpl in Hloop.
    pose proof (unvisited_decreases _ v _ (type_name_in_type_names model prefix s Hin) Hnew).
    specialize (Hloop ltac:(lia)).
    destruct (members_loop _ _ _ _ _ _) as [st'|e]; simpl; congruence.
Qed.

Lemma clazz_model_total model shape visited prefix prop_prefix clazz_name base_class
    aggregate_root api_info fuel :
  size model + 2 ≤ fuel →
  clazz_model fuel model shape visited prefix prop_prefix clazz_name base_class
    aggregate_root api_info ≠ Err OutOfFuel.
Proof.
  intros Hfuel. destruct fuel as [|fuel]; [lia|].
  destruct (decide (type_name prefix shape ∈ visited)) as [Hseen|Hnew].
  - by rewrite clazz_model_unfold_seen.
  - rewrite clazz_model_unfold_new by done.
    destruct (Shape.clazz shape) as [| | |refs|]; try done.
    destruct (resolve_members model refs) as [members|e] eqn:Hmem; simpl.
    2:{ apply resolve_members_error in Hmem as [n ->]. done. }
    pose proof (members_loop_total fuel model (or_else prefix EmptyString)
      (or_else prop_prefix EmptyString) members
      (mkLoop ({[type_name prefix shape]} ∪ visited) [] [])
      (nested_call_total model _ fuel)
      (resolve_members_in_model _ _ _ Hmem)) as Hloop.
    pose proof (type_names_size model (or_else prefix EmptyString)).
    pose proof (subseteq_size
      (type_names model (or_else prefix EmptyString) ∖ ({[type_name prefix shape]} ∪ visited))
      (type_names model (or_else prefix EmptyString)) ltac:(set_solver)).
    simpl in Hloop. specialize (Hloop ltac:(lia)).
    destruct (members_loop _ _ _ _ _ _) as [st'|e]; simpl; congruence.
Qed.

(** ** The result does not depend on the fuel *)

Lemma process_member_stable recurse1 recurse2 model prefix prop_prefix st m :
  (∀ s v, recurse1 s v ≠ Err OutOfFuel → recurse2 s v = recurse1 s v) →
  process_member recurse1 model prefix prop_prefix st m ≠ Err OutOfFuel →
  process_member recurse2 model prefix prop_prefix st m
  = process_member recurse1 model prefix prop_prefix st m.
Proof.
  intros Hrec Hne. destruct m as [name sh]. unfold process_member in *.
  assert (Hcall : ∀ s (k : compiled → result loop_state),
            (recurse1 s (visited_of st) ≫= k) ≠ Err OutOfFuel →
            (recurse2 s (visited_of st) ≫= k) = (recurse1 s (visited_of st) ≫= k)).
  { intros s k Hk. rewrite Hrec; [done|]. intros E. by rewrite E in Hk. }
  destruct (decide (to_snake name ∈ ignore_props)); [done|].
  destruct (truthy (simple_shape sh)); [done|].
  destruct (Shape.clazz sh) as [|member_ref|key_ref value_ref|refs|]; try done.
  - destruct (shape_for model member_ref) as [inner|]; simpl in *; [|done].
    destruct (truthy (simple_shape inner)); [done|].
    destruct (complex_simple_shape model inner) as [[[? ?]|]|]; simpl in *; try done.
    by apply Hcall.
  - destruct (shape_for model key_ref) as [key|]; simpl in *; [|done].
    destruct (truthy (simple_shape key)); [|done].
    destruct (shape_for model value_ref) as [value|]; simpl in *; [|done].
    by apply Hcall.
  - destruct (complex_simple_shape model sh) as [[[? ?]|]|]; simpl in *; try done.
    by apply Hcall.
Qed.

Lemma members_loop_stable recurse1 recurse2 model prefix prop_prefix members :
  (∀ s v, recurse1 s v ≠ Err OutOfFuel → recurse2 s v = recurse1 s v) →
  ∀ st,
    members_loop recurse1 model prefix prop_prefix st members ≠ Err OutOfFuel →
    members_loop recurse2 model prefix prop_prefix st members
    = members_loop recurse1 model prefix prop_prefix st members.
Proof.
  intros Hrec. induction members as [|m members IH]; intros st Hne; [done|].
  rewrite !members_loop_cons in *.
  rewrite (process_member_stable recurse1 recurse2); [|done|].
  - destruct (process_member recurse1 model prefix prop_prefix st m); [by apply IH | done].
  - intros E. by rewrite E in Hne.
Qed.

Lemma clazz_model_fuel_S fuel :
  ∀ model shape visited prefix prop_prefix clazz_name base_class aggregate_root api_info,
    clazz_model fuel model shape visited prefix prop_prefix clazz_name base_class
      aggregate_root api_info ≠ Err OutOfFuel →
    clazz_model (S fuel) model shape visited prefix prop_prefix clazz_name base_class
      aggregate_root api_info
    = clazz_model fuel model shape visited prefix prop_prefix clazz_name base_class
        aggregate_root api_info.
Proof.
  induction fuel as [|fuel IH]; intros * Hne; [done|].
  destruct (decide (type_name prefix shape ∈ visited)) as [Hseen|Hnew].
  - by rewrite !clazz_model_unfold_seen.
  - rewrite (clazz_model_unfold_new (S fuel)) by done.
    rewrite (clazz_model_unfold_new fuel) in * by done.
    destruct (Shape.clazz shape) as [| | |refs|]; try done.
    destruct (resolve_members model refs) as [members|e]; [|done].
    rewrite !bind_Ok in *.
    rewrite (members_loop_stable (nested_call fuel model (or_else prefix EmptyString))
               (nested_call (S fuel) model (or_else prefix EmptyString))); [done| |].
    + intros s v Hs. by apply IH.
    + intros E. by rewrite E in Hne.
Qed.

Lemma clazz_model_fuel_add k fuel model shape visited prefix prop_prefix clazz_name
    base_class aggregate_root api_info :
  clazz_model fuel model shape visited prefix prop_prefix clazz_name base_class
    aggregate_root api_info ≠ Err OutOfFuel →
  clazz_model (fuel + k) model shape visited prefix prop_prefix clazz_name base_class
    aggregate_root api_info
  = clazz_model fuel model shape visited prefix prop_prefix clazz_name base_class
      aggregate_root api_info.
Proof.
  intros Hne. induction k as [|k IH].
  - by rewrite Nat.add_0_r.
  - rewrite Nat.add_succ_r, clazz_model_fuel_S; [done | by rewrite IH].
Qed.


(** ** C8 *)

(** C8: on every finite schema [clazz_model] terminates, also where a shape
    reaches itself through a list or a map: with fuel above the number of
    shapes plus two the bound of the recursion is never met, more fuel does
    not change the result, and a call on a name that is not yet visited
    leaves strictly fewer names of the schema to visit. *)
Theorem clazz_model_terminates model shape visited prefix prop_prefix clazz_name
    base_class aggregate_root api_info k :
  clazz_model (size model + 2 + k) model shape visited prefix prop_prefix clazz_name
    base_class aggregate_root api_info ≠ Err OutOfFuel
  ∧ clazz_model (size model + 2 + k) model shape visited prefix prop_prefix clazz_name
      base_class aggregate_root api_info
    = clazz_model (size model + 2) model shape visited prefix prop_prefix clazz_name
        base_class aggregate_root api_info
  ∧ ∀ p s v, in_model model s → type_name (Some p) s ∉ v →
      size (type_names model p ∖ ({[type_name (Some p) s]} ∪ v))
      < size (type_names model p ∖ v).
Proof.
  split; [|split].
  - apply clazz_model_total. lia.
  - apply clazz_model_fuel_add, clazz_model_total. lia.
  - intros p s v Hin Hnew. apply unvisited_decreases; [|done].
    by apply type_name_in_type_names.
Qed.

(** The record that holds a list of itself is compiled, and the call that
    reaches it again returns at once. *)
Example node_terminates :
  ∃ ms, all_models 4 (λ _, node_schema) [("demo", [node_spec])] = Ok ms.
Proof. eexists. vm_compute. reflexivity. Qed.

(** ** The root driver and the fuel *)





(** ** C9 *)



(** ** C6 *)






(** The string shape compiled as a root leaves its scalar name behind; a
    record that normalises to the same name is then skipped. *)
Lemma clazz_model_non_record_string :
  clazz_model 1 widget_schema (shape_of "String" (shape_def "string" StringShape)) ∅
    (Some "Demo") None None None true None = Ok ([], {["str"]} ∪ ∅).
Proof.
  refine (proj1 (clazz_model_non_record 0 widget_schema
                   (shape_of "String" (shape_def "string" StringShape)) ∅
                   (Some "Demo") None None None true None _)).
  reflexivity.
Defined.

(** ** C5 *)




(** ** C3 *)

Lemma single_scalar_record_collapses model s member_name scalar :
  single_scalar_record model s member_name scalar →
  complex_simple_shape model s = Ok (Some (member_name, scalar)).
Proof.
  intros (ref & ms & Hclazz & Href & Hsimple). unfold complex_simple_shape.
  rewrite Hclazz. simpl. rewrite Href. simpl. by rewrite Hsimple.
Qed.

(** C3, as the code has it: a record with exactly one member, of scalar
    type, that is referenced by a member which is not ignored, either
    directly or as the element of a list, and that does not itself
    normalise to a scalar, becomes a plain scalar field, or an array of
    scalars, with the two-segment path of the member and the inner member;
    the round makes no recursive call, so it adds no model and no name to
    [visited]. *)
Theorem collapsed_member_rule recurse model prefix prop_prefix st name prop_shape
    inner_name scalar :
  to_snake name ∉ ignore_props →
  truthy (simple_shape prop_shape) = None →
  (single_scalar_record model prop_shape inner_name scalar →
   process_member recurse model prefix prop_prefix st (name, prop_shape)
   = Ok (mkLoop (visited_of st) (result_of st)
           (props_of st ++
            [AwsProperty.mk (prop_prefix +:+ to_snake name) (FromList [name; inner_name])
               scalar (Shape.documentation prop_shape) false false None None])))
  ∧ (∀ member_ref inner,
       Shape.clazz prop_shape = ListShape member_ref →
       shape_for model member_ref = Ok inner →
       truthy (simple_shape inner) = None →
       single_scalar_record model inner inner_name scalar →
       process_member recurse model prefix prop_prefix st (name, prop_shape)
       = Ok (mkLoop (visited_of st) (result_of st)
               (props_of st ++
                [AwsProperty.mk (prop_prefix +:+ to_snake name)
                   (FromList [name; inner_name]) scalar
                   (Shape.documentation prop_shape) true false None
                   (Some (forall_extractor name inner_name))]))).
Proof.
  intros Hign Hsimple. split.
  - intros Hrec. unfold process_member.
    rewrite decide_False by done. rewrite Hsimple.
    rewrite (single_scalar_record_collapses _ _ _ _ Hrec).
    destruct Hrec as (ref & ms & -> & _). done.
  - intros member_ref inner Hclazz Hinner Hinner_simple Hrec. unfold process_member.
    rewrite decide_False by done. rewrite Hsimple, Hclazz, Hinner, bind_Ok, Hinner_simple.
    by rewrite (single_scalar_record_collapses _ _ _ _ Hrec).
Qed.

(** The owner of the sample widget. *)
Lemma collapsed_member_rule_widget :
  process_member (nested_call 4 widget_schema "Demo") widget_schema "Demo" EmptyString
    (mkLoop {["AwsDemoWidget"]} [] [])
    ("Owner", shape_of "Owner" (shape_def "structure" (StructureShape [("Name", "String")])))
  = Ok (mkLoop {["AwsDemoWidget"]} []
          [AwsProperty.mk "owner" (FromList ["Owner"; "Name"]) "str" EmptyString
             false false None None]).
Proof.
  refine (proj1 (collapsed_member_rule (nested_call 4 widget_schema "Demo") widget_schema
                   "Demo" EmptyString (mkLoop {["AwsDemoWidget"]} [] []) "Owner"
                   (shape_of "Owner"
                      (shape_def "structure" (StructureShape [("Name", "String")])))
                   "Name" "str" _ _) _).
  - vm_compute. intros H. inversion H.
  - reflexivity.
  - exists "String", (shape_of "String" (shape_def "string" StringShape)).
    repeat split; reflexivity.
Defined.

(** The owner of the sample registry is a one-member record of scalar type
    and the value shape of a map: the run returns a model for it, and the
    field of the map has the one-segment path of the member. *)
Lemma envelope_as_map_value_compiled :
  single_scalar_record registry_schema
    (shape_of "Owner" (shape_def "structure" (StructureShape [("Name", "String")])))
    "Name" "str"
  ∧ all_models 6 (λ _, registry_schema) [("demo", [registry_spec])] = Ok registry_models.
Proof.
  split.
  - exists "String", (shape_of "String" (shape_def "string" StringShape)).
    repeat split; reflexivity.
  - vm_compute. reflexivity.
Qed.

(** ** C2 *)

Lemma clazz_model_result fuel model shape visited prefix prop_prefix clazz_name
    base_class aggregate_root api_info ms visited' :
  clazz_model fuel model shape visited prefix prop_prefix clazz_name base_class
    aggregate_root api_info = Ok (ms, visited') →
  ms = [] ∨
  ∃ fuel' refs members st,
    fuel = S fuel' ∧
    (type_name prefix shape ∉ visited) ∧
    Shape.clazz shape = StructureShape refs ∧
    resolve_members model refs = Ok members ∧
    members_loop (nested_call fuel' model (or_else prefix EmptyString)) model
      (or_else prefix EmptyString) (or_else prop_prefix EmptyString)
      (mkLoop ({[type_name prefix shape]} ∪ visited) [] []) members = Ok st ∧
    ms = (result_of st
          ++ [AwsModel.mk
                (or_else clazz_name (type_name (Some (or_else prefix EmptyString)) shape))
                (props_of st) aggregate_root base_class api_info]) ∧
    visited' = visited_of st.
Proof.
  destruct fuel as [|fuel]; [discriminate|]. intros H.
  destruct (decide (type_name prefix shape ∈ visited)) as [Hseen|Hnew].
  - rewrite clazz_model_unfold_seen in H by done. injection H as <- <-. by left.
  - rewrite clazz_model_unfold_new in H by done.
    destruct (Shape.clazz shape) as [| | |refs|] eqn:Hclazz;
      try (injection H as <- <-; by left).
    apply bind_Ok_inv in H as (members & Hmem & H).
    apply bind_Ok_inv in H as (st & Hloop & H). injection H as <- <-.
    right. exists fuel, refs, members, st. done.
Qed.




(** ** C7 *)

Lemma process_member_appends recurse model prefix prop_prefix st m st' :
  process_member recurse model prefix prop_prefix st m = Ok st' →
  (result_of st' = result_of st ∧ visited_of st' = visited_of st)
  ∨ ∃ target c, recurse target (visited_of st) = Ok c
                ∧ result_of st' = result_of st ++ c.1 ∧ visited_of st' = c.2.
Proof.
  intros H. destruct m as [name sh]. unfold process_member in H.
  split_member H; try discriminate; injection H as <-; simpl;
    first [by left | right; eexists _, _; split; [eassumption | done]].
Qed.





(** The record that holds a list of itself: the entry the nested call
    builds comes first, the entry of the root last. *)
Example node_models_order :
  all_models 4 (λ _, node_schema) [("demo", [node_spec])]
  = Ok [node_model false None; node_model true (Some ("demo", "list-nodes", "Nodes"))].
Proof. vm_compute. reflexivity. Qed.

(** ** Qualified type names as strings *)

Lemma append_nil_l (a : string) : EmptyString +:+ a = a.
Proof. reflexivity. Qed.

Lemma append_cons (x : ascii) (a b : string) : String x a +:+ b = String x (a +:+ b).
Proof. reflexivity. Qed.

Lemma append_length (a b : string) :
  String.length (a +:+ b) = String.length a + String.length b.
Proof.
  induction a as [|c a IH]; rewrite ?append_cons, ?append_nil_l; [done|]. simpl. by rewrite IH.
Qed.

Lemma append_inj_r (a b c : string) : a +:+ c = b +:+ c → a = b.
Proof.
  revert b. induction a as [|x a IH]; intros [|y b] H; rewrite ?append_cons, ?append_nil_l in H.
  - done.
  - apply (f_equal String.length) in H. simpl in H. rewrite (append_length b c) in H. lia.
  - apply (f_equal String.length) in H. simpl in H. rewrite (append_length a c) in H. lia.
  - injection H as -> H. f_equal. by apply IH.
Qed.

Lemma append_inj_l (a b c : string) : a +:+ b = a +:+ c → b = c.
Proof.
  induction a as [|x a IH]; rewrite ?append_cons, ?append_nil_l; [done|]. intros [= H]. by apply IH.
Qed.

Lemma type_name_scalar prefix s t :
  truthy (simple_shape s) = Some t → type_name prefix s = t.
Proof. unfold type_name. by intros ->. Qed.

Lemma type_name_class prefix s :
  truthy (simple_shape s) = None →
  type_name (Some prefix) s = "Aws" +:+ prefix +:+ Shape.name s.
Proof. unfold type_name. by intros ->. Qed.

Lemma record_name_class model prefix X :
  record_name model prefix X → ∃ rest, X = "Aws" +:+ rest.
Proof.
  intros (s & _ & _ & Hsimple & ->). rewrite type_name_class by done. eauto.
Qed.

Lemma scalar_not_class t rest : t ∈ scalar_names → t ≠ "Aws" +:+ rest.
Proof. intros H. scalar_cases H; rewrite ?append_cons, ?append_nil_l; discriminate. Qed.

Lemma scalar_not_dict_of_class t key_type rest :
  t ∈ scalar_names → key_type ∈ scalar_names →
  t ≠ "Dict[" +:+ key_type +:+ ", " +:+ ("Aws" +:+ rest) +:+ "]".
Proof. intros Ht Hk. scalar_cases Ht; scalar_cases Hk; rewrite ?append_cons, ?append_nil_l; discriminate. Qed.

Lemma dict_type_inj k1 k2 Y X :
  k1 ∈ scalar_names → k2 ∈ scalar_names →
  "Dict[" +:+ k1 +:+ ", " +:+ Y +:+ "]" = "Dict[" +:+ k2 +:+ ", " +:+ X +:+ "]" →
  Y = X.
Proof.
  intros H1 H2 E. scalar_cases H1; scalar_cases H2; rewrite ?append_cons, ?append_nil_l in E; try discriminate;
    injection E as E; by apply append_inj_r in E.
Qed.

(** Under one prefix the class of a record belongs to no other shape. *)
Lemma type_name_record_inj model prefix s r :
  in_model model s → in_model model r →
  truthy (simple_shape r) = None →
  type_name (Some prefix) s = type_name (Some prefix) r → s = r.
Proof.
  intros Hs Hr Hsimple E. rewrite (type_name_class _ r) in E by done.
  destruct (truthy (simple_shape s)) as [t|] eqn:Et.
  - rewrite (type_name_scalar _ _ _ Et) in E.
    apply simple_shape_scalar in Et. by apply scalar_not_class in E.
  - rewrite type_name_class in E by done.
    apply (append_inj_l "Aws"), append_inj_l in E. by eapply in_model_inj.
Qed.

(** A field emitted after the recursion into [target] mentions the class of
    a record only if that class is the qualified name of [target]. *)
Lemma nested_field_refers model prefix target p X :
  nested_field prefix target p → field_refers p X → record_name model prefix X →
  X = type_name (Some prefix) target.
Proof.
  intros Hn Hr (rest & ->)%record_name_class.
  destruct Hn as [[Hc Ht]|(Hc & k1 & Hk1 & Ht)], Hr as [[Hc' Ht']|(k2 & Hk2 & Ht')].
  - congruence.
  - rewrite Ht in Ht'.
    destruct (truthy (simple_shape target)) as [t|] eqn:Et.
    + rewrite (type_name_scalar _ _ _ Et) in Ht'. apply simple_shape_scalar in Et.
      by apply scalar_not_dict_of_class in Ht'.
    + rewrite type_name_class in Ht' by done. rewrite ?append_cons, ?append_nil_l in Ht'. discriminate.
  - congruence.
  - rewrite Ht in Ht'. symmetry. exact (dict_type_inj k1 k2 _ _ Hk1 Hk2 Ht').
Qed.

(** A plain field mentions the class of no record. *)
Lemma plain_field_refers model prefix p X :
  AwsProperty.is_complex p = false → AwsProperty.type p ∈ scalar_names →
  field_refers p X → record_name model prefix X → False.
Proof.
  intros Hc Ht Hr (rest & ->)%record_name_class.
  destruct Hr as [[Hc' _]|(k & Hk & E)]; [congruence|].
  rewrite E in Ht. exact (scalar_not_dict_of_class _ k rest Ht Hk eq_refl).
Qed.

(** ** The deduplication invariant *)

Lemma props_visited_mono model prefix props (v v' : gset string) :
  v ⊆ v' → props_visited model prefix props v → props_visited model prefix props v'.
Proof. intros Hsub H f X Hf Hr Hrec. apply Hsub. by eapply H. Qed.

Lemma props_visited_nil model prefix v : props_visited model prefix [] v.
Proof. intros f X Hf. by apply elem_of_nil in Hf. Qed.

Lemma props_visited_snoc model prefix props p v :
  props_visited model prefix props v →
  (∀ X, field_refers p X → record_name model prefix X → X ∈ v) →
  props_visited model prefix (props ++ [p]) v.
Proof.
  intros Hprops Hp f X Hf Hr Hrec.
  apply elem_of_app in Hf as [Hf|Hf]; [by eapply Hprops|].
  apply list_elem_of_singleton in Hf as ->. by apply Hp.
Qed.

Lemma compiled_from_refl model prefix v : compiled_from model prefix v [] v.
Proof.
  split; [done|]. split; [constructor|]. split; [|split].
  - by intros n Hn%elem_of_nil.
  - done.
  - by intros m Hm%elem_of_nil.
Qed.

Lemma compiled_from_app model prefix a b c ms1 ms2 :
  compiled_from model prefix a ms1 b → compiled_from model prefix b ms2 c →
  compiled_from model prefix a (ms1 ++ ms2) c.
Proof.
  intros (Hab & Hnd1 & Hn1 & Hrec1 & Hp1) (Hbc & Hnd2 & Hn2 & Hrec2 & Hp2).
  unfold compiled_from, model_names in *. rewrite map_app.
  split; [set_solver|]. split; [|split; [|split]].
  - apply NoDup_app. split; [done|]. split; [|done].
    intros n H1 H2. apply Hn1 in H1 as [H1 _]. apply Hn2 in H2 as [_ H2]. done.
  - intros n [H|H]%elem_of_app.
    + apply Hn1 in H as [? ?]. split; [by apply Hbc | done].
    + apply Hn2 in H as [? ?]. split; [done|]. intros ?. by apply H0, Hab.
  - intros X HX Hc Ha. apply elem_of_app.
    destruct (decide (X ∈ b)); [left; by apply Hrec1 | right; by apply Hrec2].
  - intros m [H|H]%elem_of_app.
    + eapply props_visited_mono; [exact Hbc | by apply Hp1].
    + by apply Hp2.
Qed.

(** The entry of the record itself, appended after the loop. *)
Lemma compiled_from_own model prefix (x : string) v ms v' own :
  x ∉ v → AwsModel.name own = x →
  compiled_from model prefix ({[x]} ∪ v) ms v' →
  props_visited model prefix (AwsModel.props own) v' →
  compiled_from model prefix v (ms ++ [own]) v'.
Proof.
  intros Hx Hname (Hsub & Hnd & Hn & Hrec & Hp) Hown.
  unfold compiled_from, model_names in *. rewrite map_app. simpl. rewrite Hname.
  split; [set_solver|]. split; [|split; [|split]].
  - apply NoDup_app. split; [done|]. split; [|apply NoDup_singleton].
    intros n H1 H2%list_elem_of_singleton. subst n.
    apply Hn in H1 as [_ H1]. set_solver.
  - intros n [H|H%list_elem_of_singleton]%elem_of_app.
    + apply Hn in H as [? ?]. set_solver.
    + subst n. set_solver.
  - intros X HX Hv' Hv. apply elem_of_app.
    destruct (decide (X = x)) as [->|Hne]; [right; by apply list_elem_of_singleton|].
    left. apply Hrec; [done | done | set_solver].
  - intros m [H|H%list_elem_of_singleton]%elem_of_app; [by apply Hp | by subst m].
Qed.

(** A name that is the class of no record adds no obligation. *)
Lemma compiled_from_ghost model prefix (x : string) v :
  ¬ record_name model prefix x → compiled_from model prefix v [] ({[x]} ∪ v).
Proof.
  intros Hx. split; [set_solver|]. split; [constructor|]. split; [|split].
  - by intros n Hn%elem_of_nil.
  - intros X HX Hin Hv. assert (X = x) as -> by set_solver. done.
  - by intros m Hm%elem_of_nil.
Qed.

(** One call of [clazz_model] under an explicit prefix and without a class
    name of its own keeps the invariant, and leaves the qualified name of
    its shape in [visited]. *)
Lemma clazz_model_compiled_from model prefix fuel :
  ∀ s v prop_prefix base_class aggregate_root api_info c,
    in_model model s →
    clazz_model fuel model s v (Some prefix) prop_prefix None base_class
      aggregate_root api_info = Ok c →
    compiled_from model prefix v c.1 c.2 ∧ type_name (Some prefix) s ∈ c.2.
Proof.
  induction fuel as [|fuel IH]; intros * Hin H; [discriminate|].
  destruct (decide (type_name (Some prefix) s ∈ v)) as [Hseen|Hnew].
  { rewrite clazz_model_unfold_seen in H by done. injection H as <-. simpl.
    split; [apply compiled_from_refl | done]. }
  rewrite clazz_model_unfold_new in H by done. rewrite or_else_Some in H.
  assert (Hghost : is_structure s = false →
                   ¬ record_name model prefix (type_name (Some prefix) s)).
  { intros Hs (r & Hr & Hstruct & Hsimple & E).
    apply (type_name_record_inj model prefix s r Hin Hr Hsimple) in E. congruence. }
  destruct (Shape.clazz s) as [| | |refs|] eqn:Hclazz;
    try (injection H as <-; simpl; split; [|set_solver];
         apply compiled_from_ghost, Hghost; unfold is_structure; by rewrite Hclazz).
  apply bind_Ok_inv in H as (members & Hmem & H).
  apply bind_Ok_inv in H as (st & Hloop & H). injection H as <-. simpl.
  set (v0 := {[type_name (Some prefix) s]} ∪ v) in *.
  eapply (members_loop_inv _ _ _ _
            (λ st, compiled_from model prefix v0 (result_of st) (visited_of st)
                   ∧ props_visited model prefix (props_of st) (visited_of st)))
    in Hloop; [ | | by eapply resolve_members_in_model | ].
  - destruct Hloop as [Hc Hp]. split.
    + eapply compiled_from_own; [exact Hnew | done | exact Hc | exact Hp].
    + destruct Hc as [Hsub _]. apply Hsub. unfold v0. set_solver.
  - intros st0 sh r [Hc Hp] _ Hstep.
    destruct Hstep as [|p Hpc Hpt|target c p Ht Hrec Hfield| | | |]; simpl; try done.
    + split; [done|]. apply props_visited_snoc; [done|].
      intros X Hr HX. exfalso. by eapply plain_field_refers.
    + unfold nested_call in Hrec. apply IH in Hrec as [Hc' Htn]; [|done].
      split; [by eapply compiled_from_app|].
      apply props_visited_snoc.
      * eapply props_visited_mono; [|exact Hp]. by destruct Hc'.
      * intros X Hr HX.
        by rewrite (nested_field_refers model prefix target p X Hfield Hr HX).
  - simpl. split; [apply compiled_from_refl | apply props_visited_nil].
Qed.

(** The root driver keeps the invariant from the empty [visited] set on. *)
Lemma endpoints_loop_compiled_from sm prefix fuel name model endpoint :
  Forall (λ ep, model = sm ∧ AwsResotoModel.prefix ep = Some prefix
                ∧ AwsResotoModel.name ep = None) endpoint →
  ∀ st st',
    compiled_from sm prefix ∅ st.1 st.2 →
    endpoints_loop fuel name model st endpoint = Ok st' →
    compiled_from sm prefix ∅ st'.1 st'.2.
Proof.
  induction endpoint as [|ep rest IH]; intros Hall st st' Hst H; simpl in H.
  - by injection H as <-.
  - inversion_clear Hall as [|? ? (-> & Hprefix & Hname) Hrest].
    apply bind_Ok_inv in H as (shape & Hshape & H).
    apply bind_Ok_inv in H as (c & Hc & H).
    rewrite Hprefix, Hname in Hc.
    apply clazz_model_compiled_from in Hc as [Hc _]; [|by eapply shape_for_in_model].
    eapply IH; [done | | exact H]. simpl. by eapply compiled_from_app.
Qed.

Lemma services_loop_compiled_from service_model models sm prefix fuel :
  uniform_roots service_model models sm prefix →
  ∀ st st',
    compiled_from sm prefix ∅ st.1 st.2 →
    services_loop fuel service_model st models = Ok st' →
    compiled_from sm prefix ∅ st'.1 st'.2.
Proof.
  unfold uniform_roots.
  induction models as [|[name endpoint] rest IH]; intros Hall st st' Hst H; simpl in H.
  - by injection H as <-.
  - inversion_clear Hall as [|? ? Heps Hrest]. simpl in *.
    apply bind_Ok_inv in H as (st1 & H1 & H).
    eapply IH; [done | | exact H].
    by eapply endpoints_loop_compiled_from.
Qed.


(** A run over uniform roots keeps the invariant to its end. *)
Lemma all_models_compiled_from service_model models sm prefix fuel ms :
  uniform_roots service_model models sm prefix →
  all_models fuel service_model models = Ok ms →
  ∃ v, compiled_from sm prefix ∅ ms v.
Proof.
  intros Huniform H. unfold all_models in H.
  apply bind_Ok_inv in H as (st & Hloop & H). injection H as <-.
  eapply services_loop_compiled_from in Hloop; [|done|apply compiled_from_refl].
  eauto.
Qed.

(** ** C1 *)




(** The table of roots of the repository meets the condition, whatever
    the schemas are: its one root is compiled under the prefix [Iam]. *)
Lemma repository_models_unique service_model fuel ms :
  all_models fuel service_model models = Ok ms →
  NoDup (model_names ms).
Proof.
  intros H.
  destruct (all_models_compiled_from service_model models (service_model "iam") "Iam"
              fuel ms) as (v & _ & Hnd & _); [|exact H|exact Hnd].
  unfold uniform_roots, models. repeat constructor.
Qed.

(** ** Instances of C7 and C8 *)


(** The record that holds a list of itself, compiled with the least fuel
    the bound asks for. *)
Lemma clazz_model_terminates_node :
  clazz_model (size node_schema + 2 + 0) node_schema
    (shape_of "Node" (shape_def "structure" (StructureShape [("Children", "NodeList")])))
    ∅ None None None None true None ≠ Err OutOfFuel.
Proof.
  exact (proj1 (clazz_model_terminates node_schema
                  (shape_of "Node"
                     (shape_def "structure" (StructureShape [("Children", "NodeList")])))
                  ∅ None None None None true None 0)).
Defined.

(** * Further properties of the generator *)

(** ** The name transformer *)

Lemma is_upper_lower_char c : is_upper (lower_char c) = false.
Proof.
  unfold lower_char. destruct (is_upper c) eqn:E; [|done].
  unfold is_upper, in_range in *.
  apply andb_true_iff in E as [E1 E2].
  apply Nat.leb_le in E1. apply Nat.leb_le in E2.
  rewrite nat_ascii_embedding by lia.
  apply andb_false_iff. right. apply Nat.leb_gt. lia.
Qed.

Lemma lower_no_upper s : no_upper (lower s) = true.
Proof.
  induction s as [|c s IH]; simpl; [done|].
  by rewrite is_upper_lower_char, IH.
Qed.

Lemma lower_fixed s : no_upper s = true → lower s = s.
Proof.
  induction s as [|c s IH]; simpl; [done|].
  intros [Hc Hs]%andb_true_iff. apply negb_true_iff in Hc.
  unfold lower_char. rewrite Hc. f_equal. by apply IH.
Qed.

Lemma re_sub_from_fixed match_at :
  (∀ t, no_upper t = true → match_at t = None) →
  ∀ steps s, no_upper s = true → re_sub_from match_at steps s = s.
Proof.
  intros Hnone. induction steps as [|steps IH]; intros s Hs; simpl; [done|].
  rewrite Hnone by done. destruct s as [|c s]; [done|].
  simpl in Hs. apply andb_true_iff in Hs as [_ Hs]. f_equal. by apply IH.
Qed.

Lemma no_upper_second c u rest :
  no_upper (String c (String u rest)) = true → is_upper u = false.
Proof.
  simpl. intros [_ [Hu _]%andb_true_iff]%andb_true_iff. by apply negb_true_iff.
Qed.

Lemma match_upper_word_none t : no_upper t = true → match_upper_word t = None.
Proof.
  destruct t as [|c [|u rest]]; try done.
  intros Hu%no_upper_second. simpl. rewrite Hu. by rewrite andb_false_r.
Qed.

Lemma match_lower_upper_none t : no_upper t = true → match_lower_upper t = None.
Proof.
  destruct t as [|c [|u rest]]; try done.
  intros Hu%no_upper_second. simpl. rewrite Hu. by rewrite andb_false_r.
Qed.

Lemma match_double_underscore_none t :
  no_upper t = true → match_double_underscore t = None.
Proof.
  destruct t as [|c [|c' [|u rest]]]; try done.
  - simpl. by repeat case_match.
  - simpl. by repeat case_match.
  - intros H. simpl in H.
    apply andb_true_iff in H as [_ H]. apply no_upper_second in H.
    unfold match_double_underscore. rewrite H. by repeat case_match.
Qed.

(** The three substitutions leave a string without [[A-Z]] as it is. *)
Lemma substitutions_fixed s :
  no_upper s = true →
  re_sub match_lower_upper (re_sub match_double_underscore (re_sub match_upper_word s)) = s.
Proof.
  intros H. unfold re_sub.
  rewrite (re_sub_from_fixed _ match_upper_word_none) by done.
  rewrite (re_sub_from_fixed _ match_double_underscore_none) by done.
  by rewrite (re_sub_from_fixed _ match_lower_upper_none).
Qed.

(** X1: whatever the identifier, [to_snake] returns a string without a
    character of [[A-Z]]. *)
Theorem to_snake_lower_case s : no_upper (to_snake s) = true.
Proof. unfold to_snake. apply lower_no_upper. Qed.



(** X3: [to_snake] is idempotent: a name it has produced is a fixed
    point. *)
Theorem to_snake_idempotent s : to_snake (to_snake s) = to_snake s.
Proof.
  assert (H : no_upper (to_snake s) = true) by (unfold to_snake; apply lower_no_upper).
  unfold to_snake at 1.
  rewrite substitutions_fixed by done.
  by apply lower_fixed.
Qed.

(** X4: the entry [Tags] of [ignore_props] never matches: a member is
    skipped exactly when its snake-case name is [tags], and then the loop
    does not look at its shape, so that an unsupported shape under such a
    name raises nothing. *)
Theorem ignored_member_rule recurse model prefix prop_prefix st name prop_shape :
  (to_snake name ∈ ignore_props ↔ to_snake name = "tags")
  ∧ (to_snake name = "tags" →
     process_member recurse model prefix prop_prefix st (name, prop_shape) = Ok st).
Proof.
  assert (Hiff : to_snake name ∈ ignore_props ↔ to_snake name = "tags").
  { unfold ignore_props. rewrite elem_of_union, !elem_of_singleton. split; [|by right].
    intros [E|E]; [|done]. pose proof (lower_no_upper
      (re_sub match_lower_upper (re_sub match_double_underscore
         (re_sub match_upper_word name)))) as H.
    change (no_upper (to_snake name) = true) in H. by rewrite E in H. }
  split; [done|]. intros E%Hiff. unfold process_member. by rewrite decide_True.
Qed.

Lemma ignored_member_rule_blob :
  process_member (nested_call 4 blob_schema "Demo") blob_schema "Demo" EmptyString
    (mkLoop ∅ [] []) ("Tags", shape_of "Blob" (shape_def "blob" OtherShape))
  = Ok (mkLoop ∅ [] []).
Proof.
  exact (proj2 (ignored_member_rule (nested_call 4 blob_schema "Demo") blob_schema "Demo"
                  EmptyString (mkLoop ∅ [] []) "Tags"
                  (shape_of "Blob" (shape_def "blob" OtherShape))) eq_refl).
Defined.

(** ** The fields of a compiled record *)

(** What a round of the loop that returns has done to [props]. *)
Lemma process_member_emits recurse model prefix prop_prefix st name sh st' :
  process_member recurse model prefix prop_prefix st (name, sh) = Ok st' →
  (to_snake name ∈ ignore_props ∧ props_of st' = props_of st)
  ∨ (to_snake name ∉ ignore_props ∧
     ∃ p, props_of st' = props_of st ++ [p] ∧
          AwsProperty.name p = prop_prefix +:+ to_snake name ∧
          source_head (AwsProperty.from_name p) = Some name ∧
          AwsProperty.description p = Shape.documentation sh ∧
          well_formed_prop p).
Proof.
  intros H. unfold process_member in H.
  split_member H; try discriminate; injection H as <-;
    first [ by left
          | right; split; [done|]; eexists; split; [reflexivity|];
            unfold well_formed_prop; simpl; repeat split; try done;
            first [ left; by eexists | right; by eexists _, _ ] ].
Qed.

(** An invariant of the rounds that return is an invariant of a loop that
    returns. *)
Lemma members_loop_Ok_ind recurse model prefix prop_prefix (I : loop_state → Prop) :
  ∀ members st st',
    (∀ st0 st1 m, m ∈ members → I st0 →
       process_member recurse model prefix prop_prefix st0 m = Ok st1 → I st1) →
    I st →
    members_loop recurse model prefix prop_prefix st members = Ok st' → I st'.
Proof.
  induction members as [|m members IH]; intros st st' Hstep HI H.
  - by injection H as <-.
  - rewrite members_loop_cons in H. apply bind_Ok_inv in H as (st1 & H1 & H).
    eapply IH; [|eapply Hstep; [|exact HI|exact H1]|exact H].
    + intros st0 st2 m' Hm'. apply Hstep. by right.
    + by left.
Qed.

(** A property of the fields that every round gives to the field it
    appends holds of all fields of all models a call returns. *)
Lemma clazz_model_props_Forall (P : AwsProperty.t → Prop) model fuel :
  (∀ recurse prefix prop_prefix st name sh st' p,
     process_member recurse model prefix prop_prefix st (name, sh) = Ok st' →
     props_of st' = props_of st ++ [p] → P p) →
  ∀ shape visited prefix prop_prefix clazz_name base_class aggregate_root api_info c,
    clazz_model fuel model shape visited prefix prop_prefix clazz_name base_class
      aggregate_root api_info = Ok c →
    Forall (λ m, Forall P (AwsModel.props m)) c.1.
Proof.
  intros Hp. induction fuel as [|fuel IH]; intros * H; [discriminate|].
  destruct c as [ms v'].
  apply clazz_model_result in H
    as [->|(f & refs & members & st & [= <-] & _ & _ & _ & Hloop & -> & _)];
    [constructor|]. simpl.
  eapply (members_loop_Ok_ind _ _ _ _
            (λ st, Forall (λ m, Forall P (AwsModel.props m)) (result_of st)
                   ∧ Forall P (props_of st))) in Hloop.
  - destruct Hloop as [Hres Hprops]. apply Forall_app. split; [done|].
    by repeat constructor.
  - intros st0 st1 [name sh] _ [Hres Hprops] Hstep. split.
    + apply process_member_appends in Hstep as [[-> _]|(target & c & Hc & -> & _)];
        [done|].
      apply Forall_app. split; [done|]. unfold nested_call in Hc. by eapply IH.
    + destruct (process_member_emits _ _ _ _ _ _ _ _ Hstep)
        as [[_ ->]|(_ & p & E & _)]; [done|].
      rewrite E. apply Forall_app. split; [done|].
      repeat constructor. by eapply Hp.
  - split; constructor.
Qed.

(** X5: every field of every model [clazz_model] returns has no default of
    its own and is of one of two forms: a one-segment source path without
    extractor, or the two-segment path of a collapsed record, which is
    never complex and carries the [ForallBend] extractor exactly when it
    is an array. *)
Theorem compiled_props_well_formed fuel model shape visited prefix prop_prefix
    clazz_name base_class aggregate_root api_info ms visited' m p :
  clazz_model fuel model shape visited prefix prop_prefix clazz_name base_class
    aggregate_root api_info = Ok (ms, visited') →
  m ∈ ms → p ∈ AwsModel.props m →
  well_formed_prop p.
Proof.
  intros H Hm Hp.
  eapply (clazz_model_props_Forall well_formed_prop) in H.
  - simpl in H. rewrite Forall_forall in H. specialize (H m Hm).
    rewrite Forall_forall in H. by apply H.
  - intros recurse pf pp st name sh st' q Hstep E.
    destruct (process_member_emits _ _ _ _ _ _ _ _ Hstep)
      as [[_ E']|(_ & q' & E' & _ & _ & _ & Hwf)].
    + rewrite E' in E. apply (f_equal List.length) in E.
      rewrite length_app in E. simpl in E. lia.
    + rewrite E' in E. apply app_inj_tail in E as [_ <-]. done.
Qed.

(** X6: a complex field of a compiled model is never rendered through an
    extractor of its own: its source path has one segment and its mapping
    is [S(source) >> Bend(T.mapping)], or the [ForallBend] form with an
    empty-list default when it is an array; and every field, complex or
    not, is declared with [factory=list] when it is an array and with
    [default=None] otherwise. *)
Theorem compiled_props_render fuel model shape visited prefix prop_prefix
    clazz_name base_class aggregate_root api_info ms visited' m p :
  clazz_model fuel model shape visited prefix prop_prefix clazz_name base_class
    aggregate_root api_info = Ok (ms, visited') →
  m ∈ ms → p ∈ AwsModel.props m →
  AwsProperty.assignment p
  = (if AwsProperty.is_array p then "field(factory=list)" else "field(default=None)")
  ∧ (AwsProperty.is_complex p = true →
     ∃ src,
       AwsProperty.from_name p = FromStr src ∧
       AwsProperty.mapping p
       = (quote +:+ AwsProperty.name p +:+ quote +:+ ": S(" +:+ quote +:+ src +:+ quote)
         +:+ (if AwsProperty.is_array p
              then ", default=[]) >> ForallBend("
              else ") >> Bend(")
         +:+ AwsProperty.type p +:+ ".mapping)").
Proof.
  intros H Hm Hp.
  eapply (clazz_model_props_Forall well_formed_prop) in H.
  2:{ intros recurse pf pp st name sh st' q Hstep E.
      destruct (process_member_emits _ _ _ _ _ _ _ _ Hstep)
        as [[_ E']|(_ & q' & E' & _ & _ & _ & Hwf)].
      - rewrite E' in E. apply (f_equal List.length) in E.
        rewrite length_app in E. simpl in E. lia.
      - rewrite E' in E. apply app_inj_tail in E as [_ <-]. done. }
  simpl in H. rewrite Forall_forall in H. specialize (H m Hm).
  rewrite Forall_forall in H. specialize (H p Hp).
  destruct H as [Hdefault Hform]. split.
  - unfold AwsProperty.assignment. rewrite Hdefault.
    by destruct (AwsProperty.is_array p).
  - intros Hcomplex.
    destruct Hform as [(src & Hsrc & Hext)|(src & inner & _ & Hc & _)]; [|congruence].
    exists src. split; [done|].
    unfold AwsProperty.mapping. rewrite Hext, Hsrc, Hcomplex.
    by destruct (AwsProperty.is_array p).
Qed.

(** The children of the sample node: an array of models. *)
Lemma compiled_props_render_node :
  AwsProperty.assignment
    (AwsProperty.mk "children" (FromStr "Children") "AwsNode" EmptyString
       true true None None)
  = "field(factory=list)".
Proof.
  refine (proj1 (compiled_props_render 3 node_schema
                   (shape_of "Node"
                      (shape_def "structure" (StructureShape [("Children", "NodeList")])))
                   ∅ (Some EmptyString) None None None false None
                   [node_model false None] {["AwsNode"]} (node_model false None)
                   (AwsProperty.mk "children" (FromStr "Children") "AwsNode" EmptyString
                      true true None None) _ _ _)).
  - vm_compute. reflexivity.
  - set_solver.
  - unfold node_model. simpl. set_solver.
Defined.

Lemma compiled_props_well_formed_node :
  well_formed_prop
    (AwsProperty.mk "children" (FromStr "Children") "AwsNode" EmptyString
       true true None None).
Proof.
  refine (compiled_props_well_formed 3 node_schema
            (shape_of "Node"
               (shape_def "structure" (StructureShape [("Children", "NodeList")])))
            ∅ (Some EmptyString) None None None false None
            [node_model false None] {["AwsNode"]} (node_model false None)
            (AwsProperty.mk "children" (FromStr "Children") "AwsNode" EmptyString
               true true None None) _ _ _).
  - vm_compute. reflexivity.
  - set_solver.
  - unfold node_model. simpl. set_solver.
Defined.

(** The fields a loop that returns has appended: one for each member that
    is not ignored, in the order of the members. *)
Lemma members_loop_fields recurse model prefix prop_prefix members :
  ∀ st st',
    members_loop recurse model prefix prop_prefix st members = Ok st' →
    map (λ p, (AwsProperty.name p, source_head (AwsProperty.from_name p))) (props_of st')
    = map (λ p, (AwsProperty.name p, source_head (AwsProperty.from_name p))) (props_of st)
      ++ map (λ m, (prop_prefix +:+ to_snake m.1, Some m.1))
             (filter (λ m, to_snake m.1 ∉ ignore_props) members).
Proof.
  induction members as [|[name sh] members IH]; intros st st' H.
  - injection H as <-. by rewrite app_nil_r.
  - rewrite members_loop_cons in H. apply bind_Ok_inv in H as (st1 & H1 & H).
    rewrite (IH _ _ H).
    destruct (process_member_emits _ _ _ _ _ _ _ _ H1)
      as [[Hign ->]|(Hign & p & -> & Hname & Hsrc & _)].
    + rewrite filter_cons_False; [done|]. simpl. by intros ?.
    + rewrite filter_cons_True by done. rewrite map_app. simpl.
      rewrite Hname, Hsrc. by rewrite <-app_assoc.
Qed.

Lemma resolve_members_names model refs members (g : string → string * option string) :
  resolve_members model refs = Ok members →
  map (λ m, g m.1) (filter (λ m : string * Shape.t, to_snake m.1 ∉ ignore_props) members)
  = map (λ r, g r.1) (filter (λ r : string * string, to_snake r.1 ∉ ignore_props) refs).
Proof.
  revert members. induction refs as [|[n ref] refs IH]; intros members Hm; simpl in Hm.
  - by injection Hm as <-.
  - apply bind_Ok_inv in Hm as (s & _ & Hm).
    apply bind_Ok_inv in Hm as (ms & Hms & Hm). injection Hm as <-.
    destruct (decide (to_snake n ∉ ignore_props)).
    + rewrite !filter_cons_True by done. simpl. f_equal. by apply IH.
    + rewrite !filter_cons_False by done. by apply IH.
Qed.

(** X7: the model compiled for a record has one field for each member
    whose snake-case name is not ignored, in the order of the members;
    the field is named by the property prefix followed by the snake-case
    name and its source path starts with the name of the member. *)
Theorem compiled_fields_follow_members fuel model shape visited prefix prop_prefix
    clazz_name base_class aggregate_root api_info ms visited' m refs :
  clazz_model fuel model shape visited prefix prop_prefix clazz_name base_class
    aggregate_root api_info = Ok (ms, visited') →
  last ms = Some m →
  Shape.clazz shape = StructureShape refs →
  map (λ p, (AwsProperty.name p, source_head (AwsProperty.from_name p))) (AwsModel.props m)
  = map (λ r, (or_else prop_prefix EmptyString +:+ to_snake r.1, Some r.1))
        (filter (λ r, to_snake r.1 ∉ ignore_props) refs).
Proof.
  intros H Hlast Hclazz.
  apply clazz_model_result in H
    as [->|(f & refs' & members & st & _ & _ & Hc & Hmem & Hloop & -> & _)];
    [discriminate|].
  rewrite last_snoc in Hlast. injection Hlast as <-. simpl.
  rewrite Hclazz in Hc. injection Hc as <-.
  rewrite (members_loop_fields _ _ _ _ _ _ _ Hloop). simpl.
  by apply (resolve_members_names model refs members
              (λ n, (or_else prop_prefix EmptyString +:+ to_snake n, Some n))).
Qed.

Lemma compiled_fields_follow_members_widget :
  map (λ p, (AwsProperty.name p, source_head (AwsProperty.from_name p)))
      (AwsModel.props widget_root)
  = map (λ r : string * string, (or_else None EmptyString +:+ to_snake r.1, Some r.1))
        (filter (λ r, to_snake r.1 ∉ ignore_props)
                [("Id", "String"); ("Size", "Integer"); ("Owner", "Owner")]).
Proof.
  refine (compiled_fields_follow_members 6 widget_schema
            (shape_of "Widget"
               (shape_def "structure"
                  (StructureShape [("Id", "String"); ("Size", "Integer"); ("Owner", "Owner")])))
            ∅ (Some "Demo") None None None true
            (Some ("demo", "list-widgets", "Widgets"))
            [widget_root] ({["AwsDemoWidget"]} ∪ ∅) widget_root _ _ _ _).
  - vm_compute. reflexivity.
  - reflexivity.
  - reflexivity.
Defined.

(** ** The entries of nested records *)

Lemma nested_call_entries model prefix fuel :
  ∀ s v c, in_model model s → nested_call fuel model prefix s v = Ok c →
           Forall (nested_entry model prefix) c.1.
Proof.
  induction fuel as [|fuel IH]; intros s v [ms v'] Hin H; [discriminate|].
  unfold nested_call in H.
  apply clazz_model_result in H
    as [->|(f & refs & members & st & [= <-] & _ & Hc & Hmem & Hloop & -> & _)];
    [constructor|]. simpl.
  rewrite or_else_Some in *.
  apply Forall_app. split.
  - eapply (members_loop_inv _ _ _ _
              (λ st, Forall (nested_entry model prefix) (result_of st))) in Hloop;
      [done | | by eapply resolve_members_in_model | constructor].
    intros st0 sh r HI _ Hstep.
    destruct Hstep as [|p|target c p Ht Hrec _| | | |]; simpl; try done.
    apply Forall_app. split; [done|]. by eapply IH.
  - repeat constructor. exists s. repeat split; try done.
    unfold is_structure. by rewrite Hc.
Qed.

(** X8: in the list [clazz_model] returns, only the last entry is built
    from the arguments of the call (root flag, base class, call
    descriptor, class name); every entry before it comes from a recursive
    call: it is no root, has neither base class nor call descriptor, and
    is named by the qualified type name of a record of the schema. *)
Theorem nested_entries_not_root fuel model shape visited prefix prop_prefix
    clazz_name base_class aggregate_root api_info ms visited' nested own :
  clazz_model fuel model shape visited prefix prop_prefix clazz_name base_class
    aggregate_root api_info = Ok (ms, visited') →
  ms = nested ++ [own] →
  Forall (nested_entry model (or_else prefix EmptyString)) nested
  ∧ AwsModel.aggregate_root own = aggregate_root
  ∧ AwsModel.base_class own = base_class
  ∧ AwsModel.api_info own = api_info
  ∧ AwsModel.name own
    = or_else clazz_name (type_name (Some (or_else prefix EmptyString)) shape).
Proof.
  intros H E.
  apply clazz_model_result in H
    as [->|(f & refs & members & st & -> & _ & Hc & Hmem & Hloop & -> & _)].
  { by destruct nested. }
  apply app_inj_tail in E as [<- <-]. split; [|done].
  eapply (members_loop_inv _ _ _ _
            (λ st, Forall (nested_entry model (or_else prefix EmptyString)) (result_of st)))
    in Hloop; [done | | by eapply resolve_members_in_model | constructor].
  intros st0 sh r HI _ Hstep.
  destruct Hstep as [|p|target c p Ht Hrec _| | | |]; simpl; try done.
  apply Forall_app. split; [done|]. by eapply nested_call_entries.
Qed.

(** The run over the sample registry: the owner is a nested entry, the
    registry carries the arguments of the root call. *)
Lemma nested_entries_not_root_registry :
  Forall (nested_entry registry_schema "Demo")
    [AwsModel.mk "AwsDemoOwner" [plain_prop "name" "Name" "str"] false None None].
Proof.
  refine (proj1 (nested_entries_not_root 5 registry_schema
                   (shape_of "Registry"
                      (shape_def "structure"
                         (StructureShape [("Owners", "OwnerMap"); ("Id", "String")])))
                   ∅ (Some "Demo") None None None true
                   (Some ("demo", "list-registries", "Registries"))
                   registry_models
                   ({["AwsDemoOwner"]} ∪ ({["AwsDemoRegistry"]} ∪ ∅))
                   [AwsModel.mk "AwsDemoOwner" [plain_prop "name" "Name" "str"]
                      false None None]
                   (AwsModel.mk "AwsDemoRegistry"
                      [ plain_prop "owners" "Owners" "Dict[str, AwsDemoOwner]";
                        plain_prop "id" "Id" "str" ]
                      true None (Some ("demo", "list-registries", "Registries")))
                   _ _)).
  - vm_compute. reflexivity.
  - reflexivity.
Defined.

(** ** What [visited] records *)

Lemma members_loop_visited_mono fuel model prefix prop_prefix members :
  ∀ st st',
    members_loop (nested_call fuel model prefix) model prefix prop_prefix st members
    = Ok st' →
    visited_of st ⊆ visited_of st'.
Proof.
  intros st st' H.
  eapply (members_loop_Ok_ind _ _ _ _ (λ s, visited_of st ⊆ visited_of s)) in H; [done| |done].
  intros st0 st1 m _ HI Hstep.
  apply process_member_appends in Hstep as [[_ ->]|(target & c & Hc & _ & ->)]; [done|].
  unfold nested_call in Hc. apply clazz_model_visited_mono in Hc. set_solver.
Qed.

Lemma clazz_model_marks fuel model shape visited prefix prop_prefix clazz_name
    base_class aggregate_root api_info c :
  clazz_model fuel model shape visited prefix prop_prefix clazz_name base_class
    aggregate_root api_info = Ok c →
  type_name prefix shape ∈ c.2.
Proof.
  destruct fuel as [|fuel]; [discriminate|]. intros H.
  destruct (decide (type_name prefix shape ∈ visited)) as [Hseen|Hnew].
  - rewrite clazz_model_unfold_seen in H by done. by injection H as <-.
  - rewrite clazz_model_unfold_new in H by done.
    destruct (Shape.clazz shape) as [| | |refs|];
      try (injection H as <-; simpl; set_solver).
    apply bind_Ok_inv in H as (members & Hmem & H).
    apply bind_Ok_inv in H as (st & Hloop & H). injection H as <-. simpl.
    apply members_loop_visited_mono in Hloop. simpl in Hloop. set_solver.
Qed.

(** X9: a call of [clazz_model] that returns never removes a name from
    [visited], and whatever the shape is, record or not, compiled or
    skipped, its qualified type name (as read with the prefix the call was
    given) is in [visited] afterwards. *)
Theorem visited_grows_and_marks fuel model shape visited prefix prop_prefix clazz_name
    base_class aggregate_root api_info ms visited' :
  clazz_model fuel model shape visited prefix prop_prefix clazz_name base_class
    aggregate_root api_info = Ok (ms, visited') →
  visited ⊆ visited' ∧ type_name prefix shape ∈ visited'.
Proof.
  intros H. split.
  - by apply clazz_model_visited_mono in H.
  - by apply clazz_model_marks in H.
Qed.

Lemma visited_grows_and_marks_node :
  (∅ : gset string) ⊆ {["AwsNode"]} ∪ ({["AwsNoneNode"]} ∪ ∅)
  ∧ "AwsNoneNode" ∈ ({["AwsNode"]} ∪ ({["AwsNoneNode"]} ∪ ∅) : gset string).
Proof.
  refine (visited_grows_and_marks 4 node_schema
            (shape_of "Node"
               (shape_def "structure" (StructureShape [("Children", "NodeList")])))
            ∅ None None None None true None
            [node_model false None; node_model true None]
            ({["AwsNode"]} ∪ ({["AwsNoneNode"]} ∪ ∅)) _).
  vm_compute. reflexivity.
Defined.

(** X10: compiling the same shape again, with the same prefix and the
    [visited] set the first call has left, returns no model and leaves
    [visited] as it is, whatever the other arguments are. *)
Theorem second_call_returns_nothing fuel model shape visited prefix prop_prefix
    clazz_name base_class aggregate_root api_info ms visited'
    fuel' prop_prefix' clazz_name' base_class' aggregate_root' api_info' :
  clazz_model fuel model shape visited prefix prop_prefix clazz_name base_class
    aggregate_root api_info = Ok (ms, visited') →
  clazz_model (S fuel') model shape visited' prefix prop_prefix' clazz_name' base_class'
    aggregate_root' api_info' = Ok ([], visited').
Proof.
  intros H. apply clazz_model_unfold_seen. by apply clazz_model_marks in H.
Qed.

Lemma second_call_returns_nothing_widget :
  clazz_model 1 widget_schema
    (shape_of "Widget"
       (shape_def "structure"
          (StructureShape [("Id", "String"); ("Size", "Integer"); ("Owner", "Owner")])))
    ({["AwsDemoWidget"]} ∪ ∅) (Some "Demo") None None None false None
  = Ok ([], {["AwsDemoWidget"]} ∪ ∅).
Proof.
  refine (second_call_returns_nothing 6 widget_schema _ ∅ (Some "Demo") None None None true
            (Some ("demo", "list-widgets", "Widgets")) [widget_root]
            ({["AwsDemoWidget"]} ∪ ∅) 0 None None None false None _).
  vm_compute. reflexivity.
Defined.

(** ** What the exceptions report *)

Lemma shape_for_error_missing model n e :
  shape_for model n = Err e → e = NoShapeFoundError n ∧ model !! n = None.
Proof.
  unfold shape_for. destruct (model !! n) eqn:E; [discriminate|]. by intros [= <-].
Qed.

Lemma resolve_members_error_missing model refs e :
  resolve_members model refs = Err e → sound_error model e.
Proof.
  induction refs as [|[n ref] refs IH]; simpl; [discriminate|].
  intros H. apply bind_Err_inv in H as [H|(s & Hs & H)].
  - by apply shape_for_error_missing in H as [-> H].
  - apply bind_Err_inv in H as [H|(ms & Hms & H)]; [auto | discriminate].
Qed.

Lemma complex_simple_shape_error model s e :
  complex_simple_shape model s = Err e → sound_error model e.
Proof.
  unfold complex_simple_shape. destruct (Shape.clazz s) as [| | |refs|]; try discriminate.
  destruct (resolve_members model refs) as [members|e'] eqn:E; simpl.
  - destruct members as [|[p_name p_shape] [|]]; try discriminate.
    by destruct (truthy (simple_shape p_shape)).
  - intros [= <-]. by eapply resolve_members_error_missing.
Qed.

Lemma process_member_error recurse model prefix prop_prefix st name sh e :
  in_model model sh →
  process_member recurse model prefix prop_prefix st (name, sh) = Err e →
  sound_error model e
  ∨ ∃ target, in_model model target ∧ recurse target (visited_of st) = Err e.
Proof.
  intros Hin H. unfold process_member in H.
  destruct (decide (to_snake name ∈ ignore_props)); [discriminate|].
  destruct (truthy (simple_shape sh)) eqn:Esimple; [discriminate|].
  destruct (Shape.clazz sh) as [|member_ref|key_ref value_ref|refs|] eqn:Eclazz.
  - injection H as <-. left. split; [done|].
    unfold unsupported, is_list, is_map, is_structure. by rewrite Eclazz.
  - destruct (shape_for model member_ref) as [inner|e'] eqn:Einner; simpl in H.
    2:{ injection H as <-. left. by apply shape_for_error_missing in Einner as [-> ?]. }
    destruct (truthy (simple_shape inner)); [discriminate|].
    destruct (complex_simple_shape model inner) as [[[? ?]|]|e'] eqn:Ec; simpl in H;
      [discriminate| |injection H as <-; left; by eapply complex_simple_shape_error].
    destruct (recurse inner (visited_of st)) as [c|e'] eqn:Erec; simpl in H;
      [discriminate|]. injection H as <-. right. exists inner.
    split; [by eapply shape_for_in_model | done].
  - destruct (shape_for model key_ref) as [key|e'] eqn:Ekey; simpl in H.
    2:{ injection H as <-. left. by apply shape_for_error_missing in Ekey as [-> ?]. }
    destruct (truthy (simple_shape key)) eqn:Ek.
    + destruct (shape_for model value_ref) as [value|e'] eqn:Evalue; simpl in H.
      2:{ injection H as <-. left. by apply shape_for_error_missing in Evalue as [-> ?]. }
      destruct (recurse value (visited_of st)) as [c|e'] eqn:Erec; simpl in H;
        [discriminate|]. injection H as <-. right. exists value.
      split; [by eapply shape_for_in_model | done].
    + injection H as <-. left. exists key, sh, value_ref.
      pose proof (shape_for_name _ _ _ Ekey) as Hname.
      repeat split; try done; [by eapply shape_for_in_model | by rewrite Hname].
  - destruct (complex_simple_shape model sh) as [[[? ?]|]|e'] eqn:Ec; simpl in H;
      [discriminate| |injection H as <-; left; by eapply complex_simple_shape_error].
    destruct (recurse sh (visited_of st)) as [c|e'] eqn:Erec; simpl in H;
      [discriminate|]. injection H as <-. right. by exists sh.
  - injection H as <-. left. split; [done|].
    unfold unsupported, is_list, is_map, is_structure. by rewrite Eclazz.
Qed.

Lemma members_loop_error recurse model prefix prop_prefix members :
  ∀ st e,
    members_loop recurse model prefix prop_prefix st members = Err e →
    ∃ st0 m, m ∈ members ∧ process_member recurse model prefix prop_prefix st0 m = Err e.
Proof.
  induction members as [|m members IH]; intros st e H; [discriminate|].
  rewrite members_loop_cons in H. apply bind_Err_inv in H as [H|(st1 & _ & H)].
  - exists st, m. split; [by left | done].
  - apply IH in H as (st0 & m' & Hm' & H). exists st0, m'. split; [by right | done].
Qed.

(** X11: every exception [clazz_model] raises is about the schema it was
    given: a missing-shape error names a shape that is not in the schema,
    an assertion error names a shape of the schema that does not normalise
    to a scalar and is the key of one of its map shapes, an
    unsupported-shape error reports a shape of the schema that is neither
    scalar, list, map nor record. *)
Theorem exceptions_are_sound model fuel :
  ∀ shape visited prefix prop_prefix clazz_name base_class aggregate_root api_info e,
    clazz_model fuel model shape visited prefix prop_prefix clazz_name base_class
      aggregate_root api_info = Err e →
    sound_error model e.
Proof.
  induction fuel as [|fuel IH]; intros * H; [by injection H as <-|].
  destruct (decide (type_name prefix shape ∈ visited)) as [Hseen|Hnew].
  - by rewrite clazz_model_unfold_seen in H.
  - rewrite clazz_model_unfold_new in H by done.
    destruct (Shape.clazz shape) as [| | |refs|]; try done.
    apply bind_Err_inv in H as [H|(members & Hmem & H)];
      [by eapply resolve_members_error_missing|].
    apply bind_Err_inv in H as [H|(st & _ & H)]; [|discriminate].
    apply members_loop_error in H as (st0 & [name sh] & Hm & H).
    pose proof (resolve_members_in_model _ _ _ Hmem) as Hall.
    rewrite Forall_forall in Hall. specialize (Hall _ Hm). simpl in Hall.
    apply process_member_error in H as [H|(target & Ht & H)]; [done | | done].
    unfold nested_call in H. by eapply IH.
Qed.

Lemma exceptions_are_sound_index :
  sound_error index_schema (AssertionError "Pair").
Proof.
  refine (exceptions_are_sound index_schema 5
            (shape_of "Index" (shape_def "structure" (StructureShape [("Buckets", "BucketMap")])))
            ∅ (Some "Demo") None None None true None (AssertionError "Pair") _).
  vm_compute. reflexivity.
Defined.

(** ** The normaliser and the collapse test *)


(** X13: [simple_shape] answers with one of six canonical names only; a
    string shape is [str] whatever it is called, and for the other shapes
    the entry under the shape's own name wins over the entry under its
    structural type name. *)
Theorem simple_shape_range s :
  (∀ t, simple_shape s = Some t → t ∈ scalar_names)
  ∧ (Shape.clazz s = StringShape → simple_shape s = Some "str")
  ∧ (∀ t, Shape.clazz s ≠ StringShape →
          simple_type_map !! Shape.name s = Some t → simple_shape s = Some t).
Proof.
  split; [|split].
  - intros t H. apply (simple_shape_scalar s).
    destruct t; [|by rewrite H].
    exfalso. unfold simple_shape in H.
    destruct (Shape.clazz s); try discriminate;
      (destruct (truthy (simple_type_map !! Shape.name s)) as [x|] eqn:E1;
       [injection H as ->; by destruct (simple_type_map !! Shape.name s) as [[|]|]
       |by destruct (simple_type_map !! Shape.type_name s) as [[|]|]]).
  - unfold simple_shape. by intros ->.
  - intros t Hne Hname.
    pose proof (simple_type_map_scalar _ _ Hname) as Ht.
    unfold simple_shape. rewrite Hname.
    assert (truthy (Some t) = Some t) as -> by (scalar_cases Ht; reflexivity).
    by destruct (Shape.clazz s).
Qed.

(** ** The types of the fields *)

(** X14: every field of every model [clazz_model] returns is typed by a
    canonical scalar and not complex, or was emitted after the recursion
    into a shape of the schema: then it is complex and typed by the
    qualified type name of that shape, or not complex and typed by a
    mapping from a canonical scalar to that name. *)
Theorem compiled_props_typed model fuel :
  ∀ shape visited prefix prop_prefix clazz_name base_class aggregate_root api_info
    ms visited',
    clazz_model fuel model shape visited prefix prop_prefix clazz_name base_class
      aggregate_root api_info = Ok (ms, visited') →
    Forall (λ m, Forall (typed_prop model (or_else prefix EmptyString)) (AwsModel.props m)) ms.
Proof.
  induction fuel as [|fuel IH]; intros * H; [discriminate|].
  apply clazz_model_result in H
    as [->|(f & refs & members & st & [= <-] & _ & _ & Hmem & Hloop & -> & _)];
    [constructor|].
  eapply (members_loop_inv _ _ _ _
            (λ st, Forall (λ m, Forall (typed_prop model (or_else prefix EmptyString))
                                  (AwsModel.props m)) (result_of st)
                   ∧ Forall (typed_prop model (or_else prefix EmptyString)) (props_of st)))
    in Hloop; [ | | by eapply resolve_members_in_model | split; constructor].
  - destruct Hloop as [Hres Hprops]. apply Forall_app. split; [done|].
    by repeat constructor.
  - intros st0 sh r [Hres Hprops] _ Hstep.
    destruct Hstep as [|p Hc Ht|target [ms' v''] p Ht Hrec Hfield| | | |]; simpl; try done.
    + split; [done|]. apply Forall_app. split; [done|]. apply Forall_singleton. by left.
    + split; apply Forall_app; (split; [done|]).
      * unfold nested_call in Hrec. apply IH in Hrec. by rewrite or_else_Some in Hrec.
      * apply Forall_singleton. right. by exists target.
Qed.

Lemma compiled_props_typed_registry :
  Forall (λ m, Forall (typed_prop registry_schema (or_else (Some "Demo") EmptyString))
                 (AwsModel.props m)) registry_models.
Proof.
  refine (compiled_props_typed registry_schema 5
            (shape_of "Registry"
               (shape_def "structure"
                  (StructureShape [("Owners", "OwnerMap"); ("Id", "String")])))
            ∅ (Some "Demo") None None None true
            (Some ("demo", "list-registries", "Registries"))
            registry_models ({["AwsDemoOwner"]} ∪ ({["AwsDemoRegistry"]} ∪ ∅)) _).
  vm_compute. reflexivity.
Defined.

(** ** The size of the result *)

Lemma nested_entry_name model prefix m :
  nested_entry model prefix m → AwsModel.name m ∈ type_names model prefix.
Proof.
  intros (_ & _ & _ & s & Hs & _ & ->). by apply type_name_in_type_names.
Qed.

Lemma NoDup_length_le_size (l : list string) (U : gset string) :
  NoDup l → (∀ x, x ∈ l → x ∈ U) → List.length l ≤ size U.
Proof.
  intros Hnd Hsub. rewrite <-(size_list_to_set (C := gset string) l) by done.
  apply subseteq_size. intros x Hx%elem_of_list_to_set. by apply Hsub.
Qed.

(** X15: a call on a shape of the schema with an explicit prefix and no
    class name of its own returns at most as many models as the schema
    has qualified type names that were not yet visited; in particular
    never more models than the schema has shapes. *)
Theorem result_size_bounded model prefix fuel shape visited prop_prefix base_class
    aggregate_root api_info ms visited' :
  in_model model shape →
  clazz_model fuel model shape visited (Some prefix) prop_prefix None base_class
    aggregate_root api_info = Ok (ms, visited') →
  List.length ms ≤ size (type_names model prefix ∖ visited)
  ∧ List.length ms ≤ size model.
Proof.
  intros Hin H.
  assert (Hle : List.length ms ≤ size (type_names model prefix ∖ visited)).
  { destruct (clazz_model_compiled_from _ _ _ _ _ _ _ _ _ _ Hin H)
      as [(_ & Hnd & Hnames & _) _]. simpl in *.
    unfold model_names in *. rewrite <-(length_map AwsModel.name ms).
    apply NoDup_length_le_size; [done|].
    intros x Hx. apply elem_of_difference. split; [|by apply Hnames].
    apply clazz_model_result in H
      as [->|(f & refs & members & st & -> & _ & Hc & Hmem & Hloop & -> & _)];
      [by apply elem_of_nil in Hx|].
    rewrite or_else_Some in *.
    rewrite map_app in Hx. apply elem_of_app in Hx as [Hx|Hx].
    - apply list_elem_of_fmap in Hx as (m & -> & Hm).
      apply nested_entry_name.
      eapply (members_loop_inv _ _ _ _
                (λ st, Forall (nested_entry model prefix) (result_of st))) in Hloop;
        [ | | by eapply resolve_members_in_model | constructor].
      + rewrite Forall_forall in Hloop. by apply Hloop.
      + intros st0 sh r HI _ Hstep.
        destruct Hstep as [|p|target c p Ht Hrec _| | | |]; simpl; try done.
        apply Forall_app. split; [done|]. by eapply nested_call_entries.
    - simpl in Hx. apply list_elem_of_singleton in Hx as ->.
      by apply type_name_in_type_names. }
  split; [done|].
  etrans; [exact Hle|]. etrans; [|apply (type_names_size model prefix)].
  apply subseteq_size. set_solver.
Qed.

Lemma result_size_bounded_box :
  List.length box_models ≤ size (type_names box_schema "Demo" ∖ ∅)
  ∧ List.length box_models ≤ size box_schema.
Proof.
  refine (result_size_bounded box_schema "Demo" 6
            (shape_of "Box"
               (shape_def "structure"
                  (StructureShape [("Outer", "Dim"); ("Inner", "Dim"); ("Parts", "DimList")])))
            ∅ None None true (Some ("demo", "list-boxes", "Boxes")) box_models
            ({["AwsDemoDim"]} ∪ ({["AwsDemoBox"]} ∪ ∅)) _ _).
  - reflexivity.
  - vm_compute. reflexivity.
Defined.

(** ** Rendering the fields that are not complex *)

(** X16: a field of a compiled model that is not complex is rendered from
    its source path alone: [S(source)] for a one-segment path, with an
    empty-list default when it is an array; [S(source,inner)] for the
    two-segment path of a collapsed record, and the [ForallBend(S(inner))]
    extractor over the list when that record is the element of a list. *)
Theorem plain_props_render fuel model shape visited prefix prop_prefix
    clazz_name base_class aggregate_root api_info ms visited' m p :
  clazz_model fuel model shape visited prefix prop_prefix clazz_name base_class
    aggregate_root api_info = Ok (ms, visited') →
  m ∈ ms → p ∈ AwsModel.props m →
  AwsProperty.is_complex p = false →
  (∀ src, AwsProperty.from_name p = FromStr src →
     AwsProperty.mapping p
     = (quote +:+ AwsProperty.name p +:+ quote +:+ ": S(" +:+ quote +:+ src +:+ quote)
       +:+ (if AwsProperty.is_array p then ", default=[])" else ")"))
  ∧ (∀ src inner, AwsProperty.from_name p = FromList [src; inner] →
       AwsProperty.mapping p
       = if AwsProperty.is_array p
         then quote +:+ AwsProperty.name p +:+ quote +:+ ": "
                +:+ forall_extractor src inner
         else (quote +:+ AwsProperty.name p +:+ quote +:+ ": S("
                 +:+ (quote +:+ src +:+ quote) +:+ "," +:+ (quote +:+ inner +:+ quote))
              +:+ ")").
Proof.
  intros H Hm Hp Hplain.
  eapply (clazz_model_props_Forall well_formed_prop) in H.
  2:{ intros recurse pf pp st name sh st' q Hstep E.
      destruct (process_member_emits _ _ _ _ _ _ _ _ Hstep)
        as [[_ E']|(_ & q' & E' & _ & _ & _ & Hwf)].
      - rewrite E' in E. apply (f_equal List.length) in E.
        rewrite length_app in E. simpl in E. lia.
      - rewrite E' in E. apply app_inj_tail in E as [_ <-]. done. }
  simpl in H. rewrite Forall_forall in H. specialize (H m Hm).
  rewrite Forall_forall in H. specialize (H p Hp).
  destruct H as [_ Hform]. split.
  - intros src Hsrc.
    destruct Hform as [(src' & Hsrc' & Hext)|(src' & inner & Hsrc' & _)]; [|congruence].
    unfold AwsProperty.mapping. rewrite Hext, Hsrc, Hplain.
    by destruct (AwsProperty.is_array p).
  - intros src inner Hsrc.
    destruct Hform as [(src' & Hsrc' & _)|(src' & inner' & Hsrc' & _ & Hext)];
      [congruence|].
    rewrite Hsrc in Hsrc'. injection Hsrc' as <- <-.
    unfold AwsProperty.mapping. rewrite Hext, Hsrc, Hplain.
    by destruct (AwsProperty.is_array p).
Qed.

(** The owner of the sample widget, collapsed to its name. *)
Lemma plain_props_render_widget :
  AwsProperty.mapping
    (AwsProperty.mk "owner" (FromList ["Owner"; "Name"]) "str" EmptyString
       false false None None)
  = quote +:+ "owner" +:+ quote +:+ ": S(" +:+ quote +:+ "Owner" +:+ quote +:+ ","
      +:+ quote +:+ "Name" +:+ quote +:+ ")".
Proof.
  refine (proj2 (plain_props_render 6 widget_schema
                   (shape_of "Widget"
                      (shape_def "structure"
                         (StructureShape
                            [("Id", "String"); ("Size", "Integer"); ("Owner", "Owner")])))
                   ∅ (Some "Demo") None None None true
                   (Some ("demo", "list-widgets", "Widgets"))
                   [widget_root] ({["AwsDemoWidget"]} ∪ ∅) widget_root
                   (AwsProperty.mk "owner" (FromList ["Owner"; "Name"]) "str" EmptyString
                      false false None None) _ _ _ _) "Owner" "Name" _).
  - vm_compute. reflexivity.
  - set_solver.
  - unfold widget_root. simpl. set_solver.
  - reflexivity.
  - reflexivity.
Defined.

(** ** Nested records take no property prefix *)

Lemma nested_call_unprefixed model prefix fuel :
  ∀ s v c, in_model model s → nested_call fuel model prefix s v = Ok c →
           Forall (unprefixed_entry model prefix) c.1.
Proof.
  induction fuel as [|fuel IH]; intros s v [ms v'] Hin H; [discriminate|].
  unfold nested_call in H.
  apply clazz_model_result in H
    as [->|(f & refs & members & st & [= <-] & _ & Hc & Hmem & Hloop & -> & _)];
    [constructor|]. simpl.
  rewrite or_else_Some in *.
  apply Forall_app. split.
  - eapply (members_loop_inv _ _ _ _
              (λ st, Forall (unprefixed_entry model prefix) (result_of st))) in Hloop;
      [done | | by eapply resolve_members_in_model | constructor].
    intros st0 sh r HI _ Hstep.
    destruct Hstep as [|p|target c p Ht Hrec _| | | |]; simpl; try done.
    apply Forall_app. split; [done|]. by eapply IH.
  - apply Forall_singleton. exists s, refs. repeat split; try done. simpl.
    rewrite (members_loop_fields _ _ _ _ _ _ _ Hloop). simpl.
    exact (resolve_members_names model refs members (λ n, (to_snake n, Some n)) Hmem).
Qed.

(** X17: the property prefix of a call is not handed on to the recursive
    calls: every entry before the last in the list [clazz_model] returns
    is compiled from a record of the schema with one field per member
    that is not ignored, named by the snake-case name of the member
    alone, whatever property prefix the call was given. *)
Theorem nested_fields_unprefixed fuel model shape visited prefix prop_prefix
    clazz_name base_class aggregate_root api_info ms visited' nested own :
  clazz_model fuel model shape visited prefix prop_prefix clazz_name base_class
    aggregate_root api_info = Ok (ms, visited') →
  ms = nested ++ [own] →
  Forall (unprefixed_entry model (or_else prefix EmptyString)) nested.
Proof.
  intros H E.
  apply clazz_model_result in H
    as [->|(f & refs & members & st & -> & _ & Hc & Hmem & Hloop & -> & _)].
  { by destruct nested. }
  apply app_inj_tail in E as [<- _].
  eapply (members_loop_inv _ _ _ _
            (λ st, Forall (unprefixed_entry model (or_else prefix EmptyString))
                     (result_of st)))
    in Hloop; [done | | by eapply resolve_members_in_model | constructor].
  intros st0 sh r HI _ Hstep.
  destruct Hstep as [|p|target c p Ht Hrec _| | | |]; simpl; try done.
  apply Forall_app. split; [done|]. by eapply nested_call_unprefixed.
Qed.

(** The dimensions of the sample box, compiled below a root with the
    property prefix [box_]: their fields are [w] and [h]. *)
Lemma nested_fields_unprefixed_box :
  Forall (unprefixed_entry box_schema (or_else (Some "Demo") EmptyString))
    [AwsModel.mk "AwsDemoDim" [plain_prop "w" "W" "int"; plain_prop "h" "H" "int"]
       false None None].
Proof.
  refine (nested_fields_unprefixed 6 box_schema
            (shape_of "Box"
               (shape_def "structure"
                  (StructureShape [("Outer", "Dim"); ("Inner", "Dim"); ("Parts", "DimList")])))
            ∅ (Some "Demo") (Some "box_") None None true None
            _ ({["AwsDemoDim"]} ∪ ({["AwsDemoBox"]} ∪ ∅))
            [AwsModel.mk "AwsDemoDim" [plain_prop "w" "W" "int"; plain_prop "h" "H" "int"]
               false None None]
            (AwsModel.mk "AwsDemoBox"
               [ AwsProperty.mk "box_outer" (FromStr "Outer") "AwsDemoDim" EmptyString
                   false true None None;
                 AwsProperty.mk "box_inner" (FromStr "Inner") "AwsDemoDim" EmptyString
                   false true None None;
                 AwsProperty.mk "box_parts" (FromStr "Parts") "AwsDemoDim" EmptyString
                   true true None None ]
               true None None) _ eq_refl).
  vm_compute. reflexivity.
Defined.

(** ** A root that is listed again *)

Lemma endpoints_loop_app fuel name sm st eps1 eps2 :
  endpoints_loop fuel name sm st (eps1 ++ eps2)
  = st' ← endpoints_loop fuel name sm st eps1; endpoints_loop fuel name sm st' eps2.
Proof.
  revert st. induction eps1 as [|ep eps1 IH]; intros st; simpl; [done|].
  destruct (shape_for sm (AwsResotoModel.result_shape ep)); simpl; [|done].
  destruct (clazz_model fuel _ _ _ _ _ _ _ _ _); simpl; [apply IH | done].
Qed.

Lemma endpoints_loop_visited_mono fuel name sm endpoint :
  ∀ st st', endpoints_loop fuel name sm st endpoint = Ok st' → st.2 ⊆ st'.2.
Proof.
  induction endpoint as [|ep rest IH]; intros st st' H; simpl in H.
  - by injection H as <-.
  - apply bind_Ok_inv in H as (shape & _ & H). apply bind_Ok_inv in H as (c & Hc & H).
    apply IH in H. apply clazz_model_visited_mono in Hc. simpl in H. set_solver.
Qed.

(** X18: a root that names the same result shape under the same prefix as
    a root listed before it in the same service adds nothing to the run:
    the list of roots gives the same result, or the same exception, with
    and without it, whatever class name, base class and property prefix
    the later root asks for. *)
Theorem repeated_root_adds_nothing fuel name sm st before ep1 between ep2 rest :
  same_root ep1 ep2 →
  endpoints_loop fuel name sm st (before ++ ep1 :: between ++ ep2 :: rest)
  = endpoints_loop fuel name sm st (before ++ ep1 :: between ++ rest).
Proof.
  intros [Hshape Hprefix]. rewrite !endpoints_loop_app.
  destruct (endpoints_loop fuel name sm st before) as [st0|]; simpl; [|done].
  destruct (shape_for sm (AwsResotoModel.result_shape ep1)) as [shape|] eqn:Es;
    simpl; [|done].
  destruct (clazz_model fuel sm shape st0.2 _ _ _ _ _ _) as [c|] eqn:Ec; simpl; [|done].
  pose proof (clazz_model_marks _ _ _ _ _ _ _ _ _ _ _ Ec) as Hmark.
  rewrite !endpoints_loop_app.
  destruct (endpoints_loop fuel name sm (st0.1 ++ c.1, c.2) between) as [[ms2 v2]|] eqn:Eb;
    simpl; [|done].
  apply endpoints_loop_visited_mono in Eb. simpl in Eb.
  rewrite <-Hshape, Es. simpl. rewrite <-Hprefix.
  destruct fuel as [|fuel]; [discriminate|].
  rewrite clazz_model_unfold_seen by set_solver. simpl. by rewrite app_nil_r.
Qed.

(** The widget listed twice: the second entry, with another class name,
    base class and property prefix, changes nothing. *)
Lemma repeated_root_adds_nothing_widget :
  endpoints_loop 6 "demo" widget_schema ([], ∅) [widget_spec; widget_spec_again]
  = endpoints_loop 6 "demo" widget_schema ([], ∅) [widget_spec].
Proof.
  exact (repeated_root_adds_nothing 6 "demo" widget_schema ([], ∅) [] widget_spec []
           widget_spec_again [] (conj eq_refl eq_refl)).
Defined.

(** * Properties of the requirements script *)

(** ** Substrings and the filter *)

Lemma outcome_bind_Done_inv {A B} (f : A → Requirements.outcome B)
    (r : Requirements.outcome A) (b : B) :
  mbind (MBind:=Requirements.outcome_bind) f r = Requirements.Done b → ∃ a, r = Requirements.Done a ∧ f a = Requirements.Done b.
Proof. destruct r as [a|k]; [eauto | discriminate]. Qed.

Lemma starts_with_spec p s :
  Requirements.starts_with p s = true ↔ ∃ b, s = p +:+ b.
Proof.
  revert s. induction p as [|a p IH]; intros s; simpl.
  - split; [|done]. intros _. exists s. by rewrite append_nil_l.
  - destruct s as [|c s].
    + split; [done | intros [b Hb]; by rewrite append_cons in Hb].
    + rewrite andb_true_iff, IH, Ascii.eqb_eq. split.
      * intros [-> [b ->]]. exists b. by rewrite append_cons.
      * intros [b Hb]. rewrite append_cons in Hb. injection Hb as -> ->. eauto.
Qed.

Lemma contains_spec needle hay :
  Requirements.contains needle hay = true ↔ ∃ a b, hay = a +:+ needle +:+ b.
Proof.
  induction hay as [|c hay IH]; simpl; rewrite orb_true_iff, starts_with_spec.
  - split.
    + intros [[b Hb]|]; [|done]. exists EmptyString, b. by rewrite append_nil_l.
    + intros (a & b & H). left. destruct a as [|x a].
      * rewrite append_nil_l in H. eauto.
      * by rewrite append_cons in H.
  - rewrite IH. split.
    + intros [[b Hb]|(a & b & ->)].
      * exists EmptyString, b. by rewrite append_nil_l.
      * exists (String c a), b. by rewrite append_cons.
    + intros (a & b & H). destruct a as [|x a].
      * left. rewrite append_nil_l in H. eauto.
      * right. rewrite append_cons in H. injection H as -> ->. eauto.
Qed.

Lemma kept_spec dep :
  negb (existsb (λ name, Requirements.contains name dep) Requirements.filter_out) = true
  ↔ kept dep.
Proof.
  rewrite negb_true_iff. split.
  - intros H name a b Hin ->.
    assert (existsb (λ n, Requirements.contains n (a +:+ name +:+ b))
              Requirements.filter_out = true) as E; [|congruence].
    apply existsb_exists. exists name. split; [by apply list_elem_of_In|].
    apply contains_spec. eauto.
  - intros H. destruct (existsb _ _) eqn:E; [|done].
    apply existsb_exists in E as (name & Hin & Hc).
    apply contains_spec in Hc as (a & b & ->).
    exfalso. eapply H; [by apply list_elem_of_In | done].
Qed.

Lemma filter_dependencies_kept deps : Forall kept (Requirements.filter_dependencies deps).
Proof.
  apply Forall_forall. intros dep Hin. apply list_elem_of_In, List.filter_In in Hin as [_ H].
  by apply kept_spec.
Qed.

Lemma filter_dependencies_app a b :
  Requirements.filter_dependencies (a ++ b)
  = Requirements.filter_dependencies a ++ Requirements.filter_dependencies b.
Proof. apply List.filter_app. Qed.


(** ** What is gathered *)

Lemma dependencies_Done p deps :
  Requirements.dependencies p = Requirements.Done deps →
  ∃ t, Requirements.definition p = Some t
       ∧ deps = default [] (Requirements.table_dependencies t).
Proof.
  unfold Requirements.dependencies, Requirements.project.
  destruct (Requirements.definition p) as [t|]; simpl; [|discriminate].
  intros [= <-]. eauto.
Qed.

Lemma optional_dependencies_Done p groups :
  Requirements.optional_dependencies p = Requirements.Done groups →
  ∃ t, Requirements.definition p = Some t
       ∧ groups = default [] (Requirements.table_optional_dependencies t).
Proof.
  unfold Requirements.optional_dependencies, Requirements.project.
  destruct (Requirements.definition p) as [t|]; simpl; [|discriminate].
  intros [= <-]. eauto.
Qed.

Lemma gather_cons p rest prod optional st :
  Requirements.gather (p :: rest) prod optional = Requirements.Done st →
  ∃ t, Requirements.definition p = Some t
       ∧ Requirements.gather rest
           (prod ++ Requirements.filter_dependencies
                      (default [] (Requirements.table_dependencies t)))
           (Requirements.extend_groups
              (default [] (Requirements.table_optional_dependencies t)) optional)
         = Requirements.Done st.
Proof.
  simpl. intros H.
  apply outcome_bind_Done_inv in H as (deps & Hd & H).
  apply outcome_bind_Done_inv in H as (groups & Hg & H).
  apply dependencies_Done in Hd as (t & Ht & ->).
  apply optional_dependencies_Done in Hg as (t' & Ht' & ->).
  assert (t' = t) as -> by congruence. eauto.
Qed.

Lemma extend_group_clean name deps optional :
  Forall kept deps →
  Forall (λ g, Forall kept g.2) optional →
  Forall (λ g, Forall kept g.2) (Requirements.extend_group name deps optional).
Proof.
  intros Hd. induction 1 as [|[n ds] rest Hds Hrest IH]; simpl.
  - by repeat constructor.
  - destruct (decide (n = name)); constructor; simpl in *; try done.
    by apply Forall_app.
Qed.

Lemma extend_groups_clean groups :
  ∀ optional,
    Forall (λ g, Forall kept g.2) optional →
    Forall (λ g, Forall kept g.2) (Requirements.extend_groups groups optional).
Proof.
  unfold Requirements.extend_groups.
  induction groups as [|g groups IH]; intros optional H; simpl; [done|].
  apply IH, extend_group_clean; [apply filter_dependencies_kept | done].
Qed.

Lemma gather_clean projects :
  ∀ prod optional st,
    Forall kept prod →
    Forall (λ g, Forall kept g.2) optional →
    Requirements.gather projects prod optional = Requirements.Done st →
    Forall kept st.1 ∧ Forall (λ g, Forall kept g.2) st.2.
Proof.
  induction projects as [|p rest IH]; intros prod optional st Hp Ho H.
  - simpl in H. by injection H as <-.
  - apply gather_cons in H as (t & _ & H).
    eapply IH in H; [done | | by apply extend_groups_clean].
    apply Forall_app. split; [done | apply filter_dependencies_kept].
Qed.

Lemma combine_calls_Done projects calls :
  Requirements.combine_calls projects = Requirements.Done calls →
  ∃ prod optional,
    Requirements.gather projects [] [] = Requirements.Done (prod, optional)
    ∧ calls = (None, prod)
              :: map (λ g, (Some g.1, g.2 ++ prod)) optional
              ++ [(Some "all", prod ++ List.concat (map snd optional))].
Proof.
  unfold Requirements.combine_calls. intros H.
  apply outcome_bind_Done_inv in H as ([prod optional] & Hg & [= <-]). eauto.
Qed.

Lemma Forall_concat_snd (P : string → Prop) (optional : list (string * list string)) :
  Forall (λ g, Forall P g.2) optional → Forall P (List.concat (map snd optional)).
Proof.
  induction 1 as [|g rest Hg _ IH]; simpl; [constructor|]. by apply Forall_app.
Qed.

(** X20: no file that [combine_dependencies] has compiled lists a
    requirement in which [resotolib] or [resoto-plugin-aws] occurs:
    whatever the projects declare, in their dependencies or in any
    optional group, every call of [compile_dependencies] gets filtered
    requirements only. *)
Theorem combine_calls_filtered projects calls :
  Requirements.combine_calls projects = Requirements.Done calls →
  Forall (λ c, Forall kept c.2) calls.
Proof.
  intros H. apply combine_calls_Done in H as (prod & optional & Hg & ->).
  apply gather_clean in Hg as [Hp Ho]; [|constructor..]. simpl in Hp, Ho.
  constructor; [done|]. apply Forall_app. split.
  - apply List.Forall_map. eapply Forall_impl; [exact Ho|].
    intros g Hgk. simpl. by apply Forall_app.
  - apply Forall_singleton. simpl. apply Forall_app. split; [done|].
    by apply Forall_concat_snd.
Qed.

(** The library and the plugin: their four calls are free of both names. *)
Lemma combine_calls_filtered_sample : Forall (λ c, Forall kept c.2) sample_calls.
Proof.
  apply (combine_calls_filtered [Requirements.lib_project; Requirements.plugin_project]).
  vm_compute. reflexivity.
Defined.

(** ** The last call *)

Lemma extend_group_perm name deps optional :
  List.concat (map snd (Requirements.extend_group name deps optional))
  ≡ₚ List.concat (map snd optional) ++ deps.
Proof.
  induction optional as [|[n ds] rest IH]; simpl.
  - by rewrite app_nil_r.
  - destruct (decide (n = name)); simpl.
    + rewrite <-!(assoc_L (++)). apply Permutation_app_head, Permutation_app_comm.
    + rewrite IH. by rewrite (assoc_L (++)).
Qed.

Lemma extend_groups_perm groups :
  ∀ optional,
    List.concat (map snd (Requirements.extend_groups groups optional))
    ≡ₚ List.concat (map snd optional)
       ++ Requirements.filter_dependencies (List.concat (map snd groups)).
Proof.
  unfold Requirements.extend_groups.
  induction groups as [|g groups IH]; intros optional; simpl.
  - by rewrite app_nil_r.
  - rewrite IH, extend_group_perm, filter_dependencies_app. by rewrite (assoc_L (++)).
Qed.

Lemma all_dependencies_table p t :
  Requirements.definition p = Some t →
  Requirements.all_dependencies p
  = Requirements.Done
      (default [] (Requirements.table_dependencies t)
       ++ List.concat (map snd (default [] (Requirements.table_optional_dependencies t)))).
Proof.
  intros H. unfold Requirements.all_dependencies, Requirements.dependencies,
    Requirements.optional_dependencies, Requirements.project. by rewrite H.
Qed.

Lemma gather_perm projects :
  ∀ prod optional st depss,
    Requirements.gather projects prod optional = Requirements.Done st →
    Forall2 (λ p ds, Requirements.all_dependencies p = Requirements.Done ds) projects depss →
    st.1 ++ List.concat (map snd st.2)
    ≡ₚ (prod ++ List.concat (map snd optional))
       ++ Requirements.filter_dependencies (List.concat depss).
Proof.
  induction projects as [|p rest IH]; intros prod optional st depss H Hall.
  - apply Forall2_nil_inv_l in Hall as ->. simpl in H. injection H as <-. simpl.
    by rewrite app_nil_r.
  - apply Forall2_cons_inv_l in Hall as (ds & depss' & Hds & Hall & ->).
    apply gather_cons in H as (t & Ht & H).
    rewrite (all_dependencies_table p t Ht) in Hds. injection Hds as <-.
    rewrite (IH _ _ _ _ H Hall). simpl.
    rewrite extend_groups_perm, !filter_dependencies_app.
    rewrite <-!(assoc_L (++)). apply Permutation_app_head.
    rewrite Permutation_app_swap_app. apply Permutation_app_head.
    by rewrite !(assoc_L (++)).
Qed.

(** X21: the last call of [combine_dependencies] is the one named [all],
    and its requirements are, up to order, the filtered
    [all_dependencies] of all projects, each as often as it is declared;
    the requirements of every earlier call are among them. *)
Theorem all_call_covers_everything projects calls depss :
  Requirements.combine_calls projects = Requirements.Done calls →
  Forall2 (λ p ds, Requirements.all_dependencies p = Requirements.Done ds) projects depss →
  ∃ earlier deps,
    calls = earlier ++ [(Some "all", deps)]
    ∧ deps ≡ₚ Requirements.filter_dependencies (List.concat depss)
    ∧ Forall (λ c, c.2 ⊆ deps) earlier.
Proof.
  intros H Hall. apply combine_calls_Done in H as (prod & optional & Hg & ->).
  exists ((None, prod) :: map (λ g, (Some g.1, g.2 ++ prod)) optional),
    (prod ++ List.concat (map snd optional)).
  split; [done|]. split.
  - by rewrite (gather_perm _ _ _ _ _ Hg Hall).
  - constructor; simpl; [set_solver|].
    apply List.Forall_map, Forall_forall. intros g Hin; simpl.
    intros d Hd. apply elem_of_app in Hd as [Hd|Hd]; [|set_solver].
    apply elem_of_app. right. apply list_elem_of_In, in_concat.
    exists g.2. split; [|by apply list_elem_of_In].
    apply in_map. by apply list_elem_of_In.
Qed.

(** The library and the plugin: the last of their calls holds the six
    requirements that are left of the eight they declare. *)
Lemma all_call_covers_everything_sample :
  ∃ earlier deps,
    sample_calls = earlier ++ [(Some "all", deps)]
    ∧ deps ≡ₚ Requirements.filter_dependencies
                (List.concat [ ["attrs>=22"; "toml"; "pytest"; "resotolib[extra]"];
                               ["resotolib==3.0"; "boto3"; "moto"; "black"] ])
    ∧ Forall (λ c, c.2 ⊆ deps) earlier.
Proof.
  apply (all_call_covers_everything [Requirements.lib_project; Requirements.plugin_project]).
  - vm_compute. reflexivity.
  - repeat constructor.
Defined.

(** ** The files that are written *)

Lemma extend_group_keys name deps optional g :
  g ∈ map fst (Requirements.extend_group name deps optional)
  ↔ g = name ∨ g ∈ map fst optional.
Proof.
  induction optional as [|[n ds] rest IH]; simpl.
  - set_solver.
  - destruct (decide (n = name)) as [->|Hn]; simpl; [set_solver|].
    rewrite !elem_of_cons, IH. tauto.
Qed.

Lemma extend_group_NoDup name deps optional :
  NoDup (map fst optional) → NoDup (map fst (Requirements.extend_group name deps optional)).
Proof.
  induction optional as [|[n ds] rest IH]; simpl; intros H.
  - apply NoDup_singleton.
  - destruct (decide (n = name)) as [->|Hn]; simpl; [done|].
    apply NoDup_cons in H as [Hn' H]. apply NoDup_cons. split; [|by apply IH].
    rewrite extend_group_keys. intros [?|?]; done.
Qed.

Lemma extend_groups_keys groups :
  ∀ optional g,
    g ∈ map fst (Requirements.extend_groups groups optional)
    ↔ g ∈ map fst groups ∨ g ∈ map fst optional.
Proof.
  unfold Requirements.extend_groups.
  induction groups as [|[n ds] groups IH]; intros optional g; simpl.
  - set_solver.
  - rewrite IH, extend_group_keys, elem_of_cons. tauto.
Qed.

Lemma extend_groups_NoDup groups :
  ∀ optional,
    NoDup (map fst optional) → NoDup (map fst (Requirements.extend_groups groups optional)).
Proof.
  unfold Requirements.extend_groups.
  induction groups as [|g groups IH]; intros optional H; simpl; [done|].
  by apply IH, extend_group_NoDup.
Qed.

Lemma declares_cons p rest g :
  declares (p :: rest) g ↔ g ∈ declared_groups p ∨ declares rest g.
Proof.
  unfold declares. split.
  - intros (q & Hq & Hg). apply elem_of_cons in Hq as [->|Hq]; eauto.
  - intros [Hg|(q & Hq & Hg)]; [exists p | exists q]; split; try done.
    + by left.
    + by right.
Qed.

Lemma gather_keys projects :
  ∀ prod optional st,
    Requirements.gather projects prod optional = Requirements.Done st →
    NoDup (map fst optional) →
    NoDup (map fst st.2)
    ∧ ∀ g, g ∈ map fst st.2 ↔ declares projects g ∨ g ∈ map fst optional.
Proof.
  induction projects as [|p rest IH]; intros prod optional st H Hnd.
  - simpl in H. injection H as <-. split; [done|]. intros g. split; [by right|].
    intros [(q & Hq & _)|?]; [|done]. by apply elem_of_nil in Hq.
  - apply gather_cons in H as (t & Ht & H).
    apply IH in H as [Hnd' Hk]; [|by apply extend_groups_NoDup].
    split; [done|]. intros g. rewrite Hk, extend_groups_keys, declares_cons.
    unfold declared_groups. rewrite Ht. tauto.
Qed.

Lemma out_file_Some_inj a b :
  Requirements.out_file (Some a) = Requirements.out_file (Some b) → a = b.
Proof.
  unfold Requirements.out_file. intros H.
  apply append_inj_l, append_inj_r in H.
  destruct a as [|x a], b as [|y b]; unfold Requirements.delim, truthy in H;
    rewrite ?append_cons, ?append_nil_l in H; congruence.
Qed.

Lemma out_file_None_Some g :
  Requirements.out_file None = Requirements.out_file (Some g) ↔ g = EmptyString.
Proof.
  split; [|by intros ->]. unfold Requirements.out_file. intros H.
  apply append_inj_l, append_inj_r in H.
  destruct g as [|y g]; unfold Requirements.delim, truthy in H;
    rewrite ?append_cons, ?append_nil_l in H; congruence.
Qed.

Lemma NoDup_out_files (keys : list string) :
  NoDup keys → NoDup (map (λ g, Requirements.out_file (Some g)) keys).
Proof.
  induction 1 as [|g keys Hg _ IH]; simpl; constructor; [|done].
  intros Hin. apply list_elem_of_In, in_map_iff in Hin as (g' & He & Hin).
  apply out_file_Some_inj in He as ->. by apply Hg, list_elem_of_In.
Qed.

(** X22: the calls of [combine_dependencies] write to pairwise distinct
    output files exactly when no project declares an optional group
    named [all] or with the empty name. The file of a group named [all]
    is written again by the last call, and the file of a group with the
    empty name is [requirements.txt], which the first call has written. *)
Theorem output_files_distinct projects calls :
  Requirements.combine_calls projects = Requirements.Done calls →
  NoDup (map (λ c, Requirements.out_file c.1) calls)
  ↔ ¬ declares projects "all" ∧ ¬ declares projects EmptyString.
Proof.
  intros H. apply combine_calls_Done in H as (prod & optional & Hg & ->).
  apply gather_keys in Hg as [Hnd Hk]; [|constructor]. simpl in Hnd, Hk.
  assert (Hd : ∀ g, declares projects g ↔ g ∈ map fst optional).
  { intros g. rewrite Hk. split; [by left|]. intros [?|Hin]; [done|].
    by apply elem_of_nil in Hin. }
  rewrite !Hd. simpl. rewrite map_app, map_map. simpl.
  assert (Hmid : map (λ g : string * list string, Requirements.out_file (Some g.1)) optional
                 = map (λ g, Requirements.out_file (Some g)) (map fst optional))
    by (by rewrite map_map).
  rewrite Hmid. clear Hmid Hd Hk. set (keys := map fst optional) in *. clearbody keys.
  split.
  - intros Hno. apply NoDup_cons in Hno as [Hhead Hrest]. split.
    + intros Hin. apply NoDup_app in Hrest as (_ & Hdis & _).
      apply (Hdis (Requirements.out_file (Some "all"))); [|by left].
      apply list_elem_of_In, (in_map (λ g, Requirements.out_file (Some g))).
      by apply list_elem_of_In.
    + intros Hin. apply Hhead, elem_of_app. left.
      apply list_elem_of_In, in_map_iff. exists EmptyString. split; [done|].
      by apply list_elem_of_In.
  - intros [Hall Hempty]. apply NoDup_cons. split.
    + intros Hin. apply elem_of_app in Hin as [Hin|Hin].
      * apply list_elem_of_In, in_map_iff in Hin as (g & He & Hin).
        symmetry in He. apply out_file_None_Some in He as ->.
        by apply Hempty, list_elem_of_In.
      * apply list_elem_of_singleton in Hin. by apply out_file_None_Some in Hin.
    + apply NoDup_app. split; [by apply NoDup_out_files|]. split; [|apply NoDup_singleton].
      intros f Hin Hf. apply list_elem_of_singleton in Hf as ->.
      apply list_elem_of_In, in_map_iff in Hin as (g & He & Hin).
      apply out_file_Some_inj in He as ->. by apply Hall, list_elem_of_In.
Qed.

(** The plugin declares a group named [all]: [requirements-all.txt] is
    written twice. *)
Lemma output_files_distinct_sample :
  NoDup (map (λ c, Requirements.out_file c.1) sample_calls)
  ↔ ¬ declares [Requirements.lib_project; Requirements.plugin_project] "all"
    ∧ ¬ declares [Requirements.lib_project; Requirements.plugin_project] EmptyString.
Proof.
  apply (output_files_distinct [Requirements.lib_project; Requirements.plugin_project]).
  vm_compute. reflexivity.
Defined.

(** ** Missing tables *)



(** ** Temporary files *)

Lemma append_assoc_l (a b c : string) : (a +:+ b) +:+ c = a +:+ b +:+ c.
Proof.
  induction a as [|x a IH]; rewrite ?append_cons, ?append_nil_l; [done|]. by rewrite IH.
Qed.

Lemma append_not_nil (a : string) (x : ascii) (b : string) :
  a +:+ String x b ≠ EmptyString.
Proof. destruct a; rewrite ?append_cons, ?append_nil_l; discriminate. Qed.

Lemma append_not_self (a : string) (x : ascii) (b : string) : a ≠ a +:+ String x b.
Proof.
  intros H. apply (f_equal String.length) in H. rewrite (append_length a (String x b)) in H.
  simpl in H. lia.
Qed.

(** X24: the temporary input file of a call of [compile_dependencies] is
    never [requirements.txt] and never the output file of the same
    call. It is the output file of the call for a group exactly when
    that group is named like the call followed by [-in], or [in] for the
    call without name or with the empty name: compiling a group [dev]
    writes and removes the file the group [dev-in] is compiled to. *)
Theorem temp_file_is_output_file (name : option string) (group : string) :
  Requirements.in_file name ≠ Requirements.out_file None
  ∧ Requirements.in_file name ≠ Requirements.out_file name
  ∧ (Requirements.in_file name = Requirements.out_file (Some group)
     ↔ group = match truthy name with
               | Some g => g +:+ "-in"
               | None => "in"
               end).
Proof.
  assert (Hkey : ∀ other,
            Requirements.in_file name = Requirements.out_file other
            ↔ Requirements.delim name +:+ "-in" = Requirements.delim other).
  { intros other. unfold Requirements.in_file, Requirements.out_file.
    change "-in.txt" with ("-in" +:+ ".txt").
    rewrite <-(append_assoc_l (Requirements.delim name) "-in" ".txt"). split.
    - by intros H%append_inj_l%append_inj_r.
    - by intros ->. }
  split; [|split].
  - rewrite Hkey. apply append_not_nil.
  - rewrite Hkey. intros H. symmetry in H. by apply append_not_self in H.
  - rewrite Hkey. unfold Requirements.delim.
    destruct (truthy name) as [g|]; destruct group as [|y group]; simpl;
      rewrite ?append_cons, ?append_nil_l.
    + split; [discriminate|]. intros H. symmetry in H. by apply append_not_nil in H.
    + split; [by intros [= ->] | by intros <-].
    + split; discriminate.
    + split; [by intros [= <- <-] | by intros [= -> ->]].
Qed.
